(** * node-ovsdb: the transport and correlation engine of [OVSDBClient]

    A shallow embedding of the client class of the repository (its
    fields, [connect], [request], [echo], [close], [_cleanup],
    [_handleData], [_handleResponse], [_handleNotification]) together
    with the part of the JavaScript run time the class leans on: the
    promise store, the timer table, the sockets with their listeners, the
    write callbacks, the console and the frames written.  Every event
    handler runs to completion, so one handler is one function on the
    state. *)

From Stdlib Require Import Ascii.
From stdpp Require Import gmap strings list pretty.

Set Warnings "-register-all".

Open Scope Z_scope.
Open Scope string_scope.

(** ** JSON values

    [JsonValue] of the types file: strings, numbers, booleans, null,
    arrays and objects.  Of the numbers only the integers are there (the
    identifiers on the wire are integers), and a number is taken to be
    exact: the values meant are those of at most 2^53 in magnitude.  An
    object keeps its fields in the order in which it lists them. *)

Inductive JsonValue : Type :=
| JNull
| JBool (b : bool)
| JNumber (n : Z)
| JString (s : string)
| JArray (xs : list JsonValue)
| JObject (fields : list (string * JsonValue)).

(** [obj[key]] on the fields of an object: [None] is [undefined]. *)
Fixpoint get_field (key : string) (fields : list (string * JsonValue))
  : option JsonValue :=
  match fields with
  | [] => None
  | (k, v) :: rest => if String.eqb k key then Some v else get_field key rest
  end.

(** [key in value] for a value with [typeof value === 'object'] that is not
    null; the keys asked for by the client (['id'], ['method'], ['error'])
    are not on any prototype, so only own properties count.  An array owns
    its indices and [length] only. *)
Definition has_key (key : string) (v : JsonValue) : bool :=
  match v with
  | JObject fields => bool_decide (is_Some (get_field key fields))
  | _ => false
  end.

(** [value.key]: [undefined] ([None]) when the property is missing. *)
Definition prop (key : string) (v : JsonValue) : option JsonValue :=
  match v with
  | JObject fields => get_field key fields
  | _ => None
  end.

(** [typeof v === 'object' && v !== null] *)
Definition is_object (v : JsonValue) : bool :=
  match v with
  | JArray _ | JObject _ => true
  | _ => false
  end.

(** Thrown values. The text of a built-in [TypeError] or [SyntaxError]
    depends on the engine and is left out. *)
Inductive JsError : Type :=
| Error (message : string)
| TypeError
| SyntaxError.

(** ** The platform

    The built-ins of the run time that the client calls and that are not
    part of the repository. *)
Class JsRuntime : Type := {
  (** [JSON.parse]: [None] when it throws a [SyntaxError]. *)
  JSON_parse : string → option JsonValue;
  (** [JSON.stringify] on a JSON value. *)
  JSON_stringify : JsonValue → string;
  (** [Number::toString] on an integer. *)
  Number_toString : Z → string
}.

(** ** Strings: [trim] and [split('\n')] *)

(** White space and line terminators of the language among the code
    units below 256. *)
Definition is_white (a : ascii) : bool :=
  let n := nat_of_ascii a in
  bool_decide (n ∈ [9; 10; 11; 12; 13; 32; 160]%nat).

Fixpoint trimStart (s : string) : string :=
  match s with
  | String a rest => if is_white a then trimStart rest else s
  | EmptyString => EmptyString
  end.

Fixpoint trimEnd (s : string) : string :=
  match s with
  | EmptyString => EmptyString
  | String a rest =>
      match trimEnd rest with
      | EmptyString => if is_white a then EmptyString else String a EmptyString
      | t => String a t
      end
  end.

Definition trim (s : string) : string := trimEnd (trimStart s).

Definition newline : ascii := ascii_of_nat 10.

(** [s.split(sep)] for a one-character separator: never the empty list. *)
Fixpoint split (sep : ascii) (s : string) : list string :=
  match s with
  | EmptyString => [EmptyString]
  | String a rest =>
      if Ascii.eqb a sep then EmptyString :: split sep rest
      else match split sep rest with
           | seg :: segs => String a seg :: segs
           | [] => [String a EmptyString]
           end
  end.

Section Conversions.
Context `{JsRuntime}.

(** [ToString] as a template literal applies it.  An object from
    [JSON.parse] prints as [[object Object]] through
    [Object.prototype.toString], unless it has a field named [toString]
    of its own: that field is not callable, [valueOf] gives back the
    object, and the conversion throws a [TypeError] ([None]).  An array
    joins its elements with commas, null elements printing as nothing. *)
Fixpoint ToString (v : JsonValue) : option string :=
  match v with
  | JNull => Some "null"
  | JBool b => Some (if b then "true" else "false")
  | JNumber n => Some (Number_toString n)
  | JString s => Some s
  | JArray xs =>
      let element (x : JsonValue) : option string :=
        match x with
        | JNull => Some EmptyString
        | _ => ToString x
        end in
      (fix join (xs : list JsonValue) : option string :=
         match xs with
         | [] => Some EmptyString
         | x :: rest =>
             match element x, rest with
             | None, _ => None
             | Some s, [] => Some s
             | Some s, _ :: _ =>
                 match join rest with
                 | Some r => Some (s +:+ "," +:+ r)
                 | None => None
                 end
             end
         end) xs
  | JObject fields =>
      if bool_decide (is_Some (get_field "toString" fields)) then None
      else Some "[object Object]"
  end.

End Conversions.

(** ** The state of a client and of the run time around it *)

(** What a promise settles with: a JSON value, the client itself
    ([resolve(this)] in [connect]) or [undefined]. *)
Inductive Value : Type :=
| VJson (v : JsonValue)
| VThis
| VUndefined.

Inductive Outcome : Type :=
| Fulfilled (v : Value)
| Rejected (e : JsError).

(** An entry of [pendingRequests]. [resolve] and [reject] are the two
    resolving functions of one promise, kept here as its handle. *)
Record PendingCall : Type := {
  deferred : nat;
  timeoutId : nat
}.

(** The two closures handed to [setTimeout], with what they capture. *)
Inductive TimerCallback : Type :=
| RequestTimer (id : Z) (method : string) (deferred : nat)
| ConnectTimer (deferred : nat).

(** The closure handed to [socket.write] by [request]. *)
Record WriteCallback : Type := {
  w_timeoutId : nat;
  w_id : Z;
  w_deferred : nat
}.

(** A socket made by [createConnection], with what the listeners that
    [connect] put on it capture from that call: the timer and the promise
    of the call.  [connecting] says that its ['connect'] event has not
    come yet; [destroyed] that [destroy()] was called on it; [once_close]
    lists the listeners [asyncDispose] added with [once('close', ...)], by
    the promise each of them resolves. *)
Record Socket : Type := {
  connecting : bool;
  destroyed : bool;
  on_timeoutId : nat;
  on_deferred : nat;
  once_close : list nat
}.

Inductive Printed : Type :=
| PValue (v : option JsonValue)
| PCaught (e : JsError).

Inductive ConsoleLine : Type :=
| console_error (label : string) (arg : Printed)
| console_log (label : string) (arg : Printed).

(** The client and the run time.  [socket] is the field [this.socket]: a
    reference to one of the sockets made so far, or null.  The sockets
    that [connect] has made stay in [sockets] with their listeners,
    whether or not [this.socket] still refers to them.  [delays] keeps the
    delay each timer was armed with.  [wire] lists the frames handed to
    [write], each with the socket it was written to. *)
Record World : Type := {
  (* the fields of OVSDBClient *)
  socketPath : string;
  timeout : Z;
  socket : option nat;
  requestId : Z;
  pendingRequests : gmap Z PendingCall;
  isConnected : bool;
  (* the run time *)
  promises : gmap nat Outcome;
  nextPromise : nat;
  timers : gmap nat TimerCallback;
  nextTimer : nat;
  delays : gmap nat Z;
  writes : gmap nat WriteCallback;
  nextWrite : nat;
  sockets : gmap nat Socket;
  nextSocket : nat;
  console : list ConsoleLine;
  wire : list (nat * string)
}.

Definition set_socket (v : option nat) (w : World) : World :=
  {| socketPath := socketPath w; timeout := timeout w; socket := v;
     requestId := requestId w; pendingRequests := pendingRequests w;
     isConnected := isConnected w; promises := promises w;
     nextPromise := nextPromise w; timers := timers w;
     nextTimer := nextTimer w; delays := delays w; writes := writes w;
     nextWrite := nextWrite w; sockets := sockets w;
     nextSocket := nextSocket w; console := console w; wire := wire w |}.

Definition set_requestId (v : Z) (w : World) : World :=
  {| socketPath := socketPath w; timeout := timeout w; socket := socket w;
     requestId := v; pendingRequests := pendingRequests w;
     isConnected := isConnected w; promises := promises w;
     nextPromise := nextPromise w; timers := timers w;
     nextTimer := nextTimer w; delays := delays w; writes := writes w;
     nextWrite := nextWrite w; sockets := sockets w;
     nextSocket := nextSocket w; console := console w; wire := wire w |}.

Definition set_pendingRequests (v : gmap Z PendingCall) (w : World) : World :=
  {| socketPath := socketPath w; timeout := timeout w; socket := socket w;
     requestId := requestId w; pendingRequests := v;
     isConnected := isConnected w; promises := promises w;
     nextPromise := nextPromise w; timers := timers w;
     nextTimer := nextTimer w; delays := delays w; writes := writes w;
     nextWrite := nextWrite w; sockets := sockets w;
     nextSocket := nextSocket w; console := console w; wire := wire w |}.

Definition set_isConnected (v : bool) (w : World) : World :=
  {| socketPath := socketPath w; timeout := timeout w; socket := socket w;
     requestId := requestId w; pendingRequests := pendingRequests w;
     isConnected := v; promises := promises w; nextPromise := nextPromise w;
     timers := timers w; nextTimer := nextTimer w; delays := delays w;
     writes := writes w; nextWrite := nextWrite w; sockets := sockets w;
     nextSocket := nextSocket w; console := console w; wire := wire w |}.

Definition set_promises (v : gmap nat Outcome) (n : nat) (w : World) : World :=
  {| socketPath := socketPath w; timeout := timeout w; socket := socket w;
     requestId := requestId w; pendingRequests := pendingRequests w;
     isConnected := isConnected w; promises := v; nextPromise := n;
     timers := timers w; nextTimer := nextTimer w; delays := delays w;
     writes := writes w; nextWrite := nextWrite w; sockets := sockets w;
     nextSocket := nextSocket w; console := console w; wire := wire w |}.

Definition set_timers (v : gmap nat TimerCallback) (n : nat) (w : World) : World :=
  {| socketPath := socketPath w; timeout := timeout w; socket := socket w;
     requestId := requestId w; pendingRequests := pendingRequests w;
     isConnected := isConnected w; promises := promises w;
     nextPromise := nextPromise w; timers := v; nextTimer := n;
     delays := delays w; writes := writes w; nextWrite := nextWrite w;
     sockets := sockets w; nextSocket := nextSocket w; console := console w;
     wire := wire w |}.

Definition set_delays (v : gmap nat Z) (w : World) : World :=
  {| socketPath := socketPath w; timeout := timeout w; socket := socket w;
     requestId := requestId w; pendingRequests := pendingRequests w;
     isConnected := isConnected w; promises := promises w;
     nextPromise := nextPromise w; timers := timers w;
     nextTimer := nextTimer w; delays := v; writes := writes w;
     nextWrite := nextWrite w; sockets := sockets w;
     nextSocket := nextSocket w; console := console w; wire := wire w |}.

Definition set_writes (v : gmap nat WriteCallback) (n : nat) (w : World) : World :=
  {| socketPath := socketPath w; timeout := timeout w; socket := socket w;
     requestId := requestId w; pendingRequests := pendingRequests w;
     isConnected := isConnected w; promises := promises w;
     nextPromise := nextPromise w; timers := timers w;
     nextTimer := nextTimer w; delays := delays w; writes := v;
     nextWrite := n; sockets := sockets w; nextSocket := nextSocket w;
     console := console w; wire := wire w |}.

Definition set_sockets (v : gmap nat Socket) (n : nat) (w : World) : World :=
  {| socketPath := socketPath w; timeout := timeout w; socket := socket w;
     requestId := requestId w; pendingRequests := pendingRequests w;
     isConnected := isConnected w; promises := promises w;
     nextPromise := nextPromise w; timers := timers w;
     nextTimer := nextTimer w; delays := delays w; writes := writes w;
     nextWrite := nextWrite w; sockets := v; nextSocket := n;
     console := console w; wire := wire w |}.

Definition set_console (v : list ConsoleLine) (w : World) : World :=
  {| socketPath := socketPath w; timeout := timeout w; socket := socket w;
     requestId := requestId w; pendingRequests := pendingRequests w;
     isConnected := isConnected w; promises := promises w;
     nextPromise := nextPromise w; timers := timers w;
     nextTimer := nextTimer w; delays := delays w; writes := writes w;
     nextWrite := nextWrite w; sockets := sockets w;
     nextSocket := nextSocket w; console := v; wire := wire w |}.

Definition set_wire (v : list (nat * string)) (w : World) : World :=
  {| socketPath := socketPath w; timeout := timeout w; socket := socket w;
     requestId := requestId w; pendingRequests := pendingRequests w;
     isConnected := isConnected w; promises := promises w;
     nextPromise := nextPromise w; timers := timers w;
     nextTimer := nextTimer w; delays := delays w; writes := writes w;
     nextWrite := nextWrite w; sockets := sockets w;
     nextSocket := nextSocket w; console := console w; wire := v |}.

(** *** The run time's primitives *)

(** [new Promise(...)]: a fresh, unsettled promise. *)
Definition newPromise (w : World) : nat * World :=
  (nextPromise w, set_promises (promises w) (S (nextPromise w)) w).

(** Calling [resolve] or [reject] of promise [p]: the first call settles
    it, later calls do nothing. *)
Definition settle_in (p : nat) (o : Outcome) (store : gmap nat Outcome)
  : gmap nat Outcome :=
  match store !! p with
  | None => <[p := o]> store
  | Some _ => store
  end.

Definition settle (p : nat) (o : Outcome) (w : World) : World :=
  set_promises (settle_in p o (promises w)) (nextPromise w) w.

(** [setTimeout(cb, delay)]: a new timer, armed.  When an armed timer
    fires is the platform's choice (not before the delay is over); the
    delay it was armed with is kept in [delays]. *)
Definition setTimeout (cb : TimerCallback) (delay : Z) (w : World) : nat * World :=
  (nextTimer w,
   set_delays (<[nextTimer w := delay]> (delays w))
     (set_timers (<[nextTimer w := cb]> (timers w)) (S (nextTimer w)) w)).

Definition clearTimeout (t : nat) (w : World) : World :=
  set_timers (delete t (timers w)) (nextTimer w) w.

(** [socket.write(frame, cb)] on socket [n]: the frame goes out, and the
    callback will be run once, with or without an error. *)
Definition socket_write (n : nat) (frame : string) (cb : WriteCallback) (w : World)
  : World :=
  set_writes (<[nextWrite w := cb]> (writes w)) (S (nextWrite w))
    (set_wire (wire w ++ [(n, frame)]) w).

(** What happens to one socket. *)
Definition mark_connected (s : Socket) : Socket :=
  {| connecting := false; destroyed := destroyed s;
     on_timeoutId := on_timeoutId s; on_deferred := on_deferred s;
     once_close := once_close s |}.

Definition mark_destroyed (s : Socket) : Socket :=
  {| connecting := connecting s; destroyed := true;
     on_timeoutId := on_timeoutId s; on_deferred := on_deferred s;
     once_close := once_close s |}.

Definition add_once_close (p : nat) (s : Socket) : Socket :=
  {| connecting := connecting s; destroyed := destroyed s;
     on_timeoutId := on_timeoutId s; on_deferred := on_deferred s;
     once_close := once_close s ++ [p] |}.

Definition drop_once_close (s : Socket) : Socket :=
  {| connecting := connecting s; destroyed := destroyed s;
     on_timeoutId := on_timeoutId s; on_deferred := on_deferred s;
     once_close := [] |}.

(** [socket.destroy()] on socket [n]. *)
Definition destroy (n : nat) (w : World) : World :=
  set_sockets (alter mark_destroyed n (sockets w)) (nextSocket w) w.

(** [socket.destroyed] as far as the client has made it so. *)
Definition is_destroyed (n : nat) (w : World) : bool :=
  match sockets w !! n with
  | Some s => destroyed s
  | None => false
  end.

(** [socket.once('close', () => resolve())] on socket [n], for the
    [resolve] of promise [p]. *)
Definition once_close_listener (n p : nat) (w : World) : World :=
  set_sockets (alter (add_once_close p) n (sockets w)) (nextSocket w) w.

Definition print (line : ConsoleLine) (w : World) : World :=
  set_console (console w ++ [line]) w.

(** *** Construction *)

Record OvsdbClientOptions : Type := {
  opt_socketPath : option string;
  opt_timeout : option Z
}.

(** [new OVSDBClient(options)]; [a || b] takes [b] when [a] is undefined,
    the empty string or zero. *)
Definition new_OVSDBClient (options : OvsdbClientOptions) : World :=
  {| socketPath :=
       match opt_socketPath options with
       | Some path => if String.eqb path EmptyString then "/var/run/openvswitch/db.sock" else path
       | None => "/var/run/openvswitch/db.sock"
       end;
     timeout :=
       match opt_timeout options with
       | Some ms => if Z.eqb ms 0 then 5000 else ms
       | None => 5000
       end;
     socket := None;
     requestId := 1;
     pendingRequests := ∅;
     isConnected := false;
     promises := ∅; nextPromise := 0%nat;
     timers := ∅; nextTimer := 0%nat;
     delays := ∅;
     writes := ∅; nextWrite := 0%nat;
     sockets := ∅; nextSocket := 0%nat;
     console := [];
     wire := [] |}.

(** ** The client's methods *)

(** [Number.MAX_SAFE_INTEGER], 2^53 - 1. *)
Abbreviation MAX_SAFE_INTEGER := 9007199254740991%Z.

(** [n++] leaves [n + 1] in a counter that is a double: exact up to
    2^53, where adding one gives 2^53 again.  (The counter starts at 1,
    so it never holds another value above [MAX_SAFE_INTEGER].) *)
Definition increment (n : Z) : Z :=
  if (n <=? MAX_SAFE_INTEGER)%Z then n + 1 else n.

Definition line_feed : string := String newline EmptyString.

(** The key a [Map<number, _>] is asked for when handed a JSON value:
    only a number can be equal to a stored key. *)
Definition number_key (v : option JsonValue) : option Z :=
  match v with
  | Some (JNumber n) => Some n
  | _ => None
  end.

(** [value[0]]: throws on [undefined] and [null]; the first element of an
    array, the first character of a string, the field ["0"] of an object,
    and [undefined] on a number or a boolean. *)
Definition index0 (v : option JsonValue) : JsError + option JsonValue :=
  match v with
  | None | Some JNull => inl TypeError
  | Some (JArray xs) => inr (head xs)
  | Some (JString (String a _)) => inr (Some (JString (String a EmptyString)))
  | Some (JString EmptyString) => inr None
  | Some (JObject fields) => inr (get_field "0" fields)
  | Some (JBool _) | Some (JNumber _) => inr None
  end.

(** The body of the [forEach] in [_cleanup], for one entry. *)
Definition reject_closed (w : World) (entry : Z * PendingCall) : World :=
  settle (deferred entry.2) (Rejected (Error "Connection closed"))
    (clearTimeout (timeoutId entry.2) w).

(** [_cleanup()]. The socket destroyed is the one [this.socket] refers
    to.  The entries are visited in the order of the map's listing; each
    visit touches the timer and the promise of its own entry only. *)
Definition _cleanup (w : World) : World :=
  let w := set_isConnected false w in
  let w :=
    match socket w with
    | Some n => set_socket None (destroy n w)
    | None => w
    end in
  let w := foldl reject_closed w (map_to_list (pendingRequests w)) in
  set_pendingRequests ∅ w.

Arguments _cleanup : simpl never.

Section Client.
Context `{JsRuntime}.

(** [connect()]; [existsSync] is what the file system answers.  The
    only guard is [isConnected]: a call made while an earlier socket is
    still connecting makes another socket and puts it in [this.socket];
    the earlier socket keeps its listeners and its timer. *)
Definition connect (existsSync : bool) (w : World) : nat * World :=
  let '(p, w) := newPromise w in
  if isConnected w then (p, settle p (Fulfilled VThis) w)
  else if negb existsSync then
    (p, settle p (Rejected (Error ("OVSDB socket not found: " +:+ socketPath w))) w)
  else
    let n := nextSocket w in
    let '(t, w) := setTimeout (ConnectTimer p) (timeout w) w in
    (p, set_socket (Some n)
          (set_sockets (<[n := {| connecting := true; destroyed := false;
                                  on_timeoutId := t; on_deferred := p;
                                  once_close := [] |}]> (sockets w)) (S n) w)).

(** [request(method, params)]: the promise it returns, and the state
    after the executor has run.  With [this.socket] null the call
    [this.socket!.write] throws inside the executor, which rejects the
    promise. *)
Definition request (method : string) (params : list JsonValue) (w : World)
  : nat * World :=
  let '(p, w) := newPromise w in
  if negb (isConnected w) then
    (p, settle p (Rejected (Error "Not connected to OVSDB")) w)
  else
    let id := requestId w in
    let w := set_requestId (increment id) w in
    let frame :=
      JSON_stringify (JObject [("method", JString method);
                               ("params", JArray params);
                               ("id", JNumber id)]) +:+ line_feed in
    let '(t, w) := setTimeout (RequestTimer id method p) (timeout w) w in
    let w := set_pendingRequests
               (<[id := {| deferred := p; timeoutId := t |}]> (pendingRequests w)) w in
    match socket w with
    | Some n =>
        (p, socket_write n frame {| w_timeoutId := t; w_id := id; w_deferred := p |} w)
    | None => (p, settle p (Rejected TypeError) w)
    end.

(** The parameters [echo] hands to [request]: the payload defaults to
    ['ping'] and is wrapped in an array unless it is one. *)
Definition echo_params (payload : option JsonValue) : list JsonValue :=
  match default (JString "ping") payload with
  | JArray xs => xs
  | p => [p]
  end.

Definition echo (payload : option JsonValue) (w : World) : nat * World :=
  request "echo" (echo_params payload) w.

(** What [echo] does with the response it awaited: the value it returns
    or the error it throws. *)
Definition echo_result (response : JsonValue) : JsError + JsonValue :=
  match (if has_key "error" response then prop "error" response else None) with
  | Some JNull | None =>
      match prop "result" response with
      | Some (JArray xs) => inr (JArray xs)
      | Some (JObject fields) =>
          match get_field "error" fields with
          | Some e =>
              match ToString e with
              | Some s => inl (Error ("OVSDB Error: " +:+ s))
              | None => inl TypeError
              end
          | None => inr (JObject fields)
          end
      | _ => inl TypeError
      end
  | Some e =>
      match ToString e with
      | Some s => inl (Error ("RPC Error: " +:+ s))
      | None => inl TypeError
      end
  end.

(** [close()] and [[Symbol.asyncDispose]()].  The test
    [socket.destroyed || socket.readyState === 'closed'] is true when the
    client has destroyed the socket, or when [closed] says so: [closed]
    answers for what the platform has done to the socket by itself. *)
Definition asyncDispose (closed : bool) (w : World) : nat * World :=
  let '(p, w) := newPromise w in
  if isConnected w then
    let w :=
      match socket w with
      | Some n =>
          if is_destroyed n w || closed then settle p (Fulfilled VUndefined) w
          else once_close_listener n p w
      | None => settle p (Fulfilled VUndefined) w
      end in
    (p, _cleanup w)
  else (p, settle p (Fulfilled VUndefined) w).

Definition close : bool → World → nat * World := asyncDispose.

(** [_handleNotification(notification)]: the error it throws, if any,
    and the state it leaves. *)
Definition _handleNotification (notification : JsonValue) (w : World)
  : option JsError * World :=
  if negb (is_object notification) || negb (has_key "method" notification) then
    (None, print (console_error "Invalid notification format:"
                    (PValue (Some notification))) w)
  else
    let method := prop "method" notification in
    let first_param (label : string) :=
      match index0 (prop "params" notification) with
      | inl e => (Some e, w)
      | inr v => (None, print (console_log label (PValue v)) w)
      end in
    let other := (None, print (console_log "Received notification:" (PValue method)) w) in
    match method with
    | Some (JString kind) =>
        if String.eqb kind "update" then first_param "Received update notification:"
        else if String.eqb kind "locked" then first_param "Received locked notification:"
        else if String.eqb kind "stolen" then first_param "Received stolen notification:"
        else other
    | _ => other
    end.

(** [_handleResponse(response)] *)
Definition _handleResponse (response : JsonValue) (w : World)
  : option JsError * World :=
  if negb (is_object response) || negb (has_key "id" response) then
    (None, print (console_error "Invalid response format:"
                    (PValue (Some response))) w)
  else
    match number_key (prop "id" response) with
    | None => _handleNotification response w
    | Some id =>
        match pendingRequests w !! id with
        | None => _handleNotification response w
        | Some request =>
            let w := set_pendingRequests (delete id (pendingRequests w)) w in
            let w := clearTimeout (timeoutId request) w in
            match (if has_key "error" response then prop "error" response
                   else None) with
            | Some JNull | None =>
                (None, settle (deferred request) (Fulfilled (VJson response)) w)
            | Some e =>
                match ToString e with
                | Some s =>
                    (None, settle (deferred request)
                             (Rejected (Error ("RPC Error: " +:+ s))) w)
                | None => (Some TypeError, w)
                end
            end
        end
    end.

(** The body of the [forEach] in [_handleData], for one segment. *)
Definition handle_message (w : World) (message : string) : World :=
  if String.eqb message EmptyString then w
  else
    match JSON_parse message with
    | Some response =>
        match _handleResponse response w with
        | (None, w) => w
        | (Some err, w) =>
            print (console_error "Failed to parse JSON:" (PCaught err)) w
        end
    | None =>
        print (console_error "Failed to parse JSON:" (PCaught SyntaxError)) w
    end.

(** [_handleData(data)], on the text of the chunk. *)
Definition _handleData (data : string) (w : World) : World :=
  let messages := split newline (trim data) in
  foldl handle_message w messages.

(** ** Events

    What can happen to a client: a call of one of its methods, an event
    of one of the sockets it has made, a timer that fires, the callback
    of a write.  The listeners of a socket stay on it for as long as it
    lives, also after [this.socket] refers to another socket or to none. *)

Inductive Event : Type :=
| CallConnect (existsSync : bool)
| CallRequest (method : string) (params : list JsonValue)
| CallClose (closed : bool)
| SocketConnect (n : nat)
| SocketError (n : nat) (err : JsError)
| SocketClose (n : nat)
| SocketData (n : nat) (data : string)
| TimerFires (t : nat)
| WriteDone (wr : nat) (err : option JsError).

(** The ['connect'] listener of socket [n]. *)
Definition on_connect (n : nat) (s : Socket) (w : World) : World :=
  let w := set_sockets (<[n := mark_connected s]> (sockets w)) (nextSocket w) w in
  let w := clearTimeout (on_timeoutId s) w in
  let w := set_isConnected true w in
  settle (on_deferred s) (Fulfilled VThis) w.

(** The ['error'] listener of a socket. *)
Definition on_error (s : Socket) (err : JsError) (w : World) : World :=
  let w := clearTimeout (on_timeoutId s) w in
  let w := _cleanup w in
  settle (on_deferred s) (Rejected err) w.

(** The ['close'] listeners of socket [n]: the one of [connect], then the
    ones [asyncDispose] added to this socket with [once], which are
    removed as they run. *)
Definition on_close (n : nat) (s : Socket) (w : World) : World :=
  let w := _cleanup w in
  let w := foldl (λ w p, settle p (Fulfilled VUndefined) w) w (once_close s) in
  set_sockets (alter drop_once_close n (sockets w)) (nextSocket w) w.

(** A timer that is still armed fires and runs its callback. *)
Definition on_timer (t : nat) (w : World) : World :=
  match timers w !! t with
  | None => w
  | Some cb =>
      let w := clearTimeout t w in
      match cb with
      | RequestTimer id method p =>
          let w := set_pendingRequests (delete id (pendingRequests w)) w in
          settle p (Rejected (Error ("Request timeout for method: " +:+ method))) w
      | ConnectTimer p =>
          let w := _cleanup w in
          settle p (Rejected (Error ("Connection timeout after "
                                     +:+ Number_toString (timeout w) +:+ "ms"))) w
      end
  end.

(** The callback [request] gave to [socket.write] is run. *)
Definition on_written (wr : nat) (err : option JsError) (w : World) : World :=
  match writes w !! wr with
  | None => w
  | Some cb =>
      let w := set_writes (delete wr (writes w)) (nextWrite w) w in
      match err with
      | None => w
      | Some e =>
          let w := clearTimeout (w_timeoutId cb) w in
          let w := set_pendingRequests (delete (w_id cb) (pendingRequests w)) w in
          settle (w_deferred cb) (Rejected e) w
      end
  end.

(** One event, run to completion.  An event of a socket runs the
    listeners of that socket, whichever socket [this.socket] refers to.
    An event that cannot happen (a timer that is not armed, an event of a
    socket that was never made, a second ['connect'] of one socket)
    leaves the state alone.  Which events the platform still emits for a
    socket that was destroyed is not settled here: every socket made can
    have any of its events at any time. *)
Definition handle (e : Event) (w : World) : World :=
  match e with
  | CallConnect existsSync => (connect existsSync w).2
  | CallRequest method params => (request method params w).2
  | CallClose closed => (close closed w).2
  | SocketConnect n =>
      match sockets w !! n with
      | Some s => if connecting s then on_connect n s w else w
      | None => w
      end
  | SocketError n err =>
      match sockets w !! n with
      | Some s => on_error s err w
      | None => w
      end
  | SocketClose n =>
      match sockets w !! n with
      | Some s => on_close n s w
      | None => w
      end
  | SocketData n data =>
      match sockets w !! n with
      | Some _ => _handleData data w
      | None => w
      end
  | TimerFires t => on_timer t w
  | WriteDone wr err => on_written wr err w
  end.

Definition run (events : list Event) (w : World) : World :=
  foldl (λ w e, handle e w) w events.

(** The states a client can be in. *)
Inductive reachable : World → Prop :=
| reachable_new (options : OvsdbClientOptions) :
    reachable (new_OVSDBClient options)
| reachable_handle (w : World) (e : Event) :
    reachable w → reachable (handle e w).

End Client.

(** ** A run time to compute with

    The theorems below hold for every [JsRuntime].  To run the client on
    concrete frames, this instance reads and prints the fragment of JSON
    whose numbers are integers of at most 2^53 in magnitude, written
    without fraction or exponent, whose strings have no [\u] escapes and
    whose objects have no member named like an array index; on that
    fragment it agrees with [JSON.parse] and [JSON.stringify], and with
    [Number::toString].  Outside the fragment it is not meant: it reads
    larger integers exactly, refuses fractions and exponents, and keeps
    every member of an object at the place of its first mention. *)

Module Mini.

Definition double_quote : ascii := ascii_of_nat 34.

Definition is_space (a : ascii) : bool :=
  bool_decide (nat_of_ascii a ∈ [9; 10; 13; 32]%nat).

Fixpoint skip_ws (s : string) : string :=
  match s with
  | String a rest => if is_space a then skip_ws rest else s
  | EmptyString => EmptyString
  end.

Fixpoint strip_prefix (pre s : string) : option string :=
  match pre, s with
  | EmptyString, _ => Some s
  | String a pre, String b s => if Ascii.eqb a b then strip_prefix pre s else None
  | String _ _, EmptyString => None
  end.

Definition is_digit (a : ascii) : bool :=
  let n := nat_of_ascii a in bool_decide (48 ≤ n ≤ 57)%nat.

Definition digit (a : ascii) : Z := Z.of_nat (nat_of_ascii a) - 48.

Fixpoint read_digits (acc : Z) (s : string) : Z * string :=
  match s with
  | String a rest => if is_digit a then read_digits (10 * acc + digit a) rest else (acc, s)
  | EmptyString => (acc, s)
  end.

(** An integer literal: no leading zero, no fraction, no exponent. *)
Definition read_int (s : string) : option (Z * string) :=
  let '(negative, s) :=
    match s with
    | String "-" rest => (true, rest)
    | _ => (false, s)
    end in
  match s with
  | String a rest =>
      if is_digit a then
        let '(n, rest') := read_digits 0 s in
        let leading_zero :=
          match s with
          | String "0" (String b _) => is_digit b
          | _ => false
          end in
        let continued :=
          match rest' with
          | String b _ => bool_decide (b ∈ ["."; "e"; "E"]%char)
          | EmptyString => false
          end in
        if leading_zero || continued then None
        else Some (if negative : bool then - n else n, rest')
      else None
  | EmptyString => None
  end.

(** The characters of a string literal, after the opening quote. *)
Fixpoint read_chars (s : string) : option (string * string) :=
  match s with
  | EmptyString => None
  | String a rest =>
      if Ascii.eqb a double_quote then Some (EmptyString, rest)
      else if Ascii.eqb a "\" then
        match rest with
        | String b rest =>
            let unescaped : option ascii :=
              if Ascii.eqb b double_quote then Some double_quote
              else if Ascii.eqb b "\" then Some "\"%char
              else if Ascii.eqb b "/" then Some "/"%char
              else if Ascii.eqb b "b" then Some (ascii_of_nat 8)
              else if Ascii.eqb b "f" then Some (ascii_of_nat 12)
              else if Ascii.eqb b "n" then Some (ascii_of_nat 10)
              else if Ascii.eqb b "r" then Some (ascii_of_nat 13)
              else if Ascii.eqb b "t" then Some (ascii_of_nat 9)
              else None in
            match unescaped, read_chars rest with
            | Some c, Some (str, rest') => Some (String c str, rest')
            | _, _ => None
            end
        | EmptyString => None
        end
      else if bool_decide (nat_of_ascii a < 32)%nat then None
      else match read_chars rest with
           | Some (str, rest') => Some (String a str, rest')
           | None => None
           end
  end.

(** A later member with the same name replaces the value of the earlier
    one, in place. *)
Fixpoint set_field (key : string) (v : JsonValue) (fields : list (string * JsonValue))
  : list (string * JsonValue) :=
  match fields with
  | [] => [(key, v)]
  | (k, x) :: rest =>
      if String.eqb k key then (k, v) :: rest else (k, x) :: set_field key v rest
  end.

Fixpoint read_value (fuel : nat) (s : string) : option (JsonValue * string) :=
  match fuel with
  | O => None
  | S fuel =>
      let s := skip_ws s in
      match s with
      | String "n" _ => rest ← strip_prefix "null" s; Some (JNull, rest)
      | String "t" _ => rest ← strip_prefix "true" s; Some (JBool true, rest)
      | String "f" _ => rest ← strip_prefix "false" s; Some (JBool false, rest)
      | String "[" rest =>
          match skip_ws rest with
          | String "]" rest => Some (JArray [], rest)
          | _ => '(xs, rest) ← read_elements fuel rest; Some (JArray xs, rest)
          end
      | String "{" rest =>
          match skip_ws rest with
          | String "}" rest => Some (JObject [], rest)
          | _ => '(fields, rest) ← read_members fuel [] rest; Some (JObject fields, rest)
          end
      | String a rest =>
          if Ascii.eqb a double_quote then
            '(str, rest) ← read_chars rest; Some (JString str, rest)
          else '(n, rest) ← read_int s; Some (JNumber n, rest)
      | EmptyString => None
      end
  end
with read_elements (fuel : nat) (s : string) : option (list JsonValue * string) :=
  match fuel with
  | O => None
  | S fuel =>
      '(x, rest) ← read_value fuel s;
      match skip_ws rest with
      | String "]" rest => Some ([x], rest)
      | String "," rest => '(xs, rest) ← read_elements fuel rest; Some (x :: xs, rest)
      | _ => None
      end
  end
with read_members (fuel : nat) (acc : list (string * JsonValue)) (s : string)
  : option (list (string * JsonValue) * string) :=
  match fuel with
  | O => None
  | S fuel =>
      match skip_ws s with
      | String a rest =>
          if Ascii.eqb a double_quote then
            '(key, rest) ← read_chars rest;
            match skip_ws rest with
            | String ":" rest =>
                '(x, rest) ← read_value fuel rest;
                let acc := set_field key x acc in
                match skip_ws rest with
                | String "}" rest => Some (acc, rest)
                | String "," rest => read_members fuel acc rest
                | _ => None
                end
            | _ => None
            end
          else None
      | EmptyString => None
      end
  end.

Definition parse (s : string) : option JsonValue :=
  '(v, rest) ← read_value (S (String.length s)) s;
  match skip_ws rest with
  | EmptyString => Some v
  | _ => None
  end.

Definition hex_digit (n : nat) : ascii :=
  ascii_of_nat (if bool_decide (n < 10)%nat then 48 + n else 87 + n).

Fixpoint escape (s : string) : string :=
  match s with
  | EmptyString => EmptyString
  | String a rest =>
      let n := nat_of_ascii a in
      (if Ascii.eqb a double_quote then String "\" (String double_quote EmptyString)
       else if Ascii.eqb a "\" then String "\" (String "\" EmptyString)
       else if bool_decide (n = 8)%nat then "\b"
       else if bool_decide (n = 9)%nat then "\t"
       else if bool_decide (n = 10)%nat then "\n"
       else if bool_decide (n = 12)%nat then "\f"
       else if bool_decide (n = 13)%nat then "\r"
       else if bool_decide (n < 32)%nat then
         "\u00" +:+ String (hex_digit (n / 16)) (String (hex_digit (n mod 16)) EmptyString)
       else String a EmptyString) +:+ escape rest
  end.

Definition quote (s : string) : string :=
  String double_quote (escape s) +:+ String double_quote EmptyString.

Fixpoint join (sep : string) (parts : list string) : string :=
  match parts with
  | [] => EmptyString
  | [part] => part
  | part :: rest => part +:+ sep +:+ join sep rest
  end.

Fixpoint stringify (v : JsonValue) : string :=
  match v with
  | JNull => "null"
  | JBool b => if b then "true" else "false"
  | JNumber n => pretty n
  | JString s => quote s
  | JArray xs => "[" +:+ join "," (map stringify xs) +:+ "]"
  | JObject fields =>
      "{" +:+ join "," (map (λ field, quote field.1 +:+ ":" +:+ stringify field.2) fields)
      +:+ "}"
  end.

#[global] Instance runtime : JsRuntime := {|
  JSON_parse := parse;
  JSON_stringify := stringify;
  Number_toString := pretty
|}.

End Mini.

(** Frames are written with apostrophes where the wire has double
    quotes. *)
Fixpoint wire_text (s : string) : string :=
  match s with
  | EmptyString => EmptyString
  | String a rest =>
      String (if Ascii.eqb a "'" then Mini.double_quote else a) (wire_text rest)
  end.

(** ** Example runs *)

Definition fresh_client : World :=
  new_OVSDBClient {| opt_socketPath := None; opt_timeout := None |}.

(** A connected client: its socket is socket 0. *)
Definition connected_client : World :=
  run [CallConnect true; SocketConnect 0] fresh_client.

(** A connected client with one call of [echo] in flight: identifier 1,
    promise 1, timer 1, write callback 0. *)
Definition one_call : World :=
  run [CallConnect true; SocketConnect 0; CallRequest "echo" [JString "ping"]]
    fresh_client.

(** Six calls without answer, then [echo()]: its identifier is 7. *)
Definition seventh_call : World :=
  run (CallConnect true :: SocketConnect 0
       :: replicate 6 (CallRequest "list_dbs" [])
       ++ [CallRequest "echo" [JString "ping"]]) fresh_client.

(** The seven calls, then [close()], the ['close'] event of the socket, a
    new [connect()] and the ['connect'] event of the new socket. *)
Definition reconnected_client : World :=
  run [CallClose false; SocketClose 0; CallConnect true; SocketConnect 1]
    seventh_call.

(** A client that is marked connected and has no socket: a second
    [connect()] replaced the socket of the first, the second socket
    failed, and the first socket, whose listeners are still on it,
    connected after that. *)
Definition connected_without_socket : World :=
  run [CallConnect true; CallConnect true;
       SocketError 1 (Error "connect ECONNREFUSED"); SocketConnect 0]
    fresh_client.

(** A connected client on which [MAX_SAFE_INTEGER] calls have been
    issued: its counter is at 2^53. *)
Definition exhausted_client : World :=
  run (replicate (Z.to_nat MAX_SAFE_INTEGER) (CallRequest "list_dbs" []))
    connected_client.

(** The response to the seventh call, as the specification writes it. *)
Definition ping_response : JsonValue :=
  JObject [("result", JArray [JString "ping"]); ("error", JNull); ("id", JNumber 7)].

(** ** The rejections of a call, under the names the specification gives
    them; the client throws plain [Error]s told apart by their text. *)

Definition NotConnected : Outcome := Rejected (Error "Not connected to OVSDB").

Definition ConnectionClosed : Outcome := Rejected (Error "Connection closed").


Definition RpcError (text : string) : Outcome :=
  Rejected (Error ("RPC Error: " +:+ text)).

(** ** The invariant of the correlator

    What holds of the pending table, the timers, the promises, the
    sockets and the write callbacks in every state a client can be in.
    Some parts hold of the identifiers up to [MAX_SAFE_INTEGER] only:
    once the counter has reached 2^53 that one identifier is handed out
    again and again. *)

(** The closure of a write callback agrees with the table: no other
    entry has its promise, its timer, if armed, is the timer of its own
    call, and, when its identifier is one that is handed out once, the
    entry under its identifier, if there is one, is the entry of its own
    call. *)
Record WriteAgrees (w : World) (cb : WriteCallback) : Prop := {
  wa_timer_fresh : (w_timeoutId cb < nextTimer w)%nat;
  wa_promise_fresh : (w_deferred cb < nextPromise w)%nat;
  wa_id_past : (w_id cb ≤ MAX_SAFE_INTEGER → w_id cb < requestId w)%Z;
  wa_entry : (w_id cb ≤ MAX_SAFE_INTEGER)%Z →
      ∀ pc, pendingRequests w !! w_id cb = Some pc →
      pc = {| deferred := w_deferred cb; timeoutId := w_timeoutId cb |};
  wa_promise : ∀ id pc, pendingRequests w !! id = Some pc →
      deferred pc = w_deferred cb → id = w_id cb;
  wa_timer : ∀ c, timers w !! w_timeoutId cb = Some c →
      ∃ m, c = RequestTimer (w_id cb) m (w_deferred cb)
}.

(** What the listeners of a socket capture: a promise and a timer of
    their own [connect] call, which belong to no call of [request]. *)
Record SocketAgrees (w : World) (s : Socket) : Prop := {
  sa_promise_fresh : (on_deferred s < nextPromise w)%nat;
  sa_timer_fresh : (on_timeoutId s < nextTimer w)%nat;
  sa_listener_fresh : ∀ p, p ∈ once_close s → (p < nextPromise w)%nat;
  sa_timer : ∀ c, timers w !! on_timeoutId s = Some c →
      c = ConnectTimer (on_deferred s);
  sa_apart : ∀ id pc, pendingRequests w !! id = Some pc →
      deferred pc ≠ on_deferred s
}.

Record Inv (w : World) : Prop := {
  inv_counter : (1 ≤ requestId w ≤ MAX_SAFE_INTEGER + 1)%Z;
  inv_ids : ∀ id pc, pendingRequests w !! id = Some pc →
      (1 ≤ id ≤ requestId w ∧ (id ≤ MAX_SAFE_INTEGER → id < requestId w))%Z;
  inv_armed : ∀ id pc, pendingRequests w !! id = Some pc →
      ∃ m, timers w !! timeoutId pc = Some (RequestTimer id m (deferred pc));
  inv_timer : ∀ t id m p, timers w !! t = Some (RequestTimer id m p) →
      (id ≤ MAX_SAFE_INTEGER)%Z →
      pendingRequests w !! id = Some {| deferred := p; timeoutId := t |};
  inv_timer_promise : ∀ t id m p id' pc,
      timers w !! t = Some (RequestTimer id m p) →
      pendingRequests w !! id' = Some pc → deferred pc = p → id' = id;
  inv_unsettled : ∀ id pc, pendingRequests w !! id = Some pc →
      promises w !! deferred pc = None
      ∨ promises w !! deferred pc = Some (Rejected TypeError);
  inv_distinct : ∀ id1 id2 pc1 pc2,
      pendingRequests w !! id1 = Some pc1 → pendingRequests w !! id2 = Some pc2 →
      deferred pc1 = deferred pc2 → id1 = id2;
  inv_connected : ∀ id pc, pendingRequests w !! id = Some pc → isConnected w = true;
  inv_promise_fresh : ∀ p o, promises w !! p = Some o → (p < nextPromise w)%nat;
  inv_timer_fresh : ∀ t cb, timers w !! t = Some cb → (t < nextTimer w)%nat;
  inv_deferred_fresh : ∀ id pc, pendingRequests w !! id = Some pc →
      (deferred pc < nextPromise w)%nat;
  inv_timer_deferred : ∀ t id m p, timers w !! t = Some (RequestTimer id m p) →
      (p < nextPromise w)%nat;
  inv_timeout_fresh : ∀ t p, timers w !! t = Some (ConnectTimer p) →
      (p < nextPromise w)%nat;
  inv_socket : ∀ n s, sockets w !! n = Some s → SocketAgrees w s;
  inv_socket_fresh : ∀ n s, sockets w !! n = Some s → (n < nextSocket w)%nat;
  inv_this_socket : ∀ n, socket w = Some n →
      ∃ s, sockets w !! n = Some s ∧ destroyed s = false;
  inv_write : ∀ wr cb, writes w !! wr = Some cb → WriteAgrees w cb
}.

(** What the three ways in which one call ends have in common: its entry
    leaves the table and its timer is disarmed. *)
Definition forget (id : Z) (t : nat) (w : World) : World :=
  clearTimeout t (set_pendingRequests (delete id (pendingRequests w)) w).

(** Identifier, timer and promise belong to one call of the state. *)
Record OneCall (w : World) (id : Z) (t p : nat) : Prop := {
  oc_entry : (id ≤ MAX_SAFE_INTEGER)%Z →
      ∀ pc, pendingRequests w !! id = Some pc →
      pc = {| deferred := p; timeoutId := t |};
  oc_promise : ∀ id' pc, pendingRequests w !! id' = Some pc →
      deferred pc = p → id' = id;
  oc_timer : ∀ c, timers w !! t = Some c → ∃ m, c = RequestTimer id m p
}.

(** Two states with the same client fields, promises, timers, write
    callbacks and sockets. *)
Definition same_core (w w' : World) : Prop :=
  socket w' = socket w ∧ requestId w' = requestId w
  ∧ pendingRequests w' = pendingRequests w ∧ isConnected w' = isConnected w
  ∧ promises w' = promises w ∧ nextPromise w' = nextPromise w
  ∧ timers w' = timers w ∧ nextTimer w' = nextTimer w
  ∧ writes w' = writes w ∧ sockets w' = sockets w
  ∧ nextSocket w' = nextSocket w.

(** The parts of the invariant, by name. *)
Ltac inv_fields HI :=
  destruct HI as [Hcnt Hids Harm Htim Htp Huns Hdis Hcon Hpf Htf Hdf Htd Htof
                    Hsa Hsf Hts Hwr].

(** How a later state relates to an earlier one: the counters never go
    back, an old timer or entry that is there was there before, and a
    settled promise stays as it is. *)
Record Grows (w w' : World) : Prop := {
  g_requestId : (requestId w ≤ requestId w')%Z;
  g_nextTimer : (nextTimer w ≤ nextTimer w')%nat;
  g_nextPromise : (nextPromise w ≤ nextPromise w')%nat;
  g_timers : ∀ t c, timers w' !! t = Some c → (t < nextTimer w)%nat →
      timers w !! t = Some c;
  g_pending : ∀ id pc, pendingRequests w' !! id = Some pc → (id < requestId w)%Z →
      pendingRequests w !! id = Some pc;
  g_promises : ∀ p o, promises w !! p = Some o → promises w' !! p = Some o
}.

(** [s.includes(c)] for one character. *)
Fixpoint contains (c : ascii) (s : string) : bool :=
  match s with
  | EmptyString => false
  | String a rest => Ascii.eqb a c || contains c rest
  end.

(** The line [_handleData] prints for a segment that is not JSON. *)
Definition parse_failure : ConsoleLine :=
  console_error "Failed to parse JSON:" (PCaught SyntaxError).

(** The state after [_handleResponse], the error it may throw dropped. *)
Definition routed `{JsRuntime} (message : JsonValue) (w : World) : World :=
  (_handleResponse message w).2.




(** Frames for the example runs. *)
Definition echo_reply_frame : string :=
  wire_text "{'result':['ping'],'error':null,'id':1}".

Definition echo_reply : JsonValue :=
  JObject [("result", JArray [JString "ping"]); ("error", JNull); ("id", JNumber 1)].

Definition locked_frame : string :=
  wire_text "{'method':'locked','params':['mylock'],'id':null}".

Definition locked_notification : JsonValue :=
  JObject [("method", JString "locked"); ("params", JArray [JString "mylock"]);
           ("id", JNull)].

Definition malformed_segment : string := "{oops".

(** An [update] notification that has no parameters. *)
Definition update_without_params_frame : string :=
  wire_text "{'method':'update','id':null}".

(** The reply to the first call, cut in two. *)
Definition first_half : string := wire_text "{'result':['ping'],'err".

Definition second_half : string := wire_text "or':null,'id':1}".



(** ** The other public methods

    Each is a call of [request] followed, once the response is there, by
    the checks of its body; the checks are a function of the response. *)

Section Methods.
Context `{JsRuntime}.

Definition listDbs (w : World) : nat * World := request "list_dbs" [] w.

(** [getSchema(dbName = 'Open_vSwitch')] *)
Definition getSchema (dbName : option string) (w : World) : nat * World :=
  request "get_schema" [JString (default "Open_vSwitch" dbName)] w.

(** [transact(dbName, operations)]: the operations are spread after the
    name of the database. *)
Definition transact (dbName : string) (operations : list JsonValue) (w : World)
  : nat * World :=
  request "transact" (JString dbName :: operations) w.

Definition monitor (dbName : string) (monitorId monitorRequests : JsonValue)
    (w : World) : nat * World :=
  request "monitor" [JString dbName; monitorId; monitorRequests] w.

Definition monitorCancel (monitorId : JsonValue) (w : World) : nat * World :=
  request "monitor_cancel" [monitorId] w.

(** The statements after the [await] in [listDbs], [getSchema], [monitor]
    and [monitorCancel], which are those of [echo]: an error of the
    response, then an error inside the result, then the result.
    ['error' in result] throws a [TypeError] when the result is not an
    object. *)
Definition checked_result (response : JsonValue) : JsError + JsonValue :=
  match (if has_key "error" response then prop "error" response else None) with
  | Some JNull | None =>
      match prop "result" response with
      | Some (JArray xs) => inr (JArray xs)
      | Some (JObject fields) =>
          match get_field "error" fields with
          | Some e =>
              match ToString e with
              | Some s => inl (Error ("OVSDB Error: " +:+ s))
              | None => inl TypeError
              end
          | None => inr (JObject fields)
          end
      | _ => inl TypeError
      end
  | Some e =>
      match ToString e with
      | Some s => inl (Error ("RPC Error: " +:+ s))
      | None => inl TypeError
      end
  end.

(** The statements after the [await] in [transact]: the result is handed
    on as it is ([None] when the response has none). *)
Definition transact_result (response : JsonValue) : JsError + option JsonValue :=
  match (if has_key "error" response then prop "error" response else None) with
  | Some JNull | None => inr (prop "result" response)
  | Some e =>
      match ToString e with
      | Some s => inl (Error ("RPC Error: " +:+ s))
      | None => inl TypeError
      end
  end.

End Methods.

(** The frame [request] writes for a call. *)
Definition request_frame `{JsRuntime} (method : string) (params : list JsonValue)
    (id : Z) : string :=
  JSON_stringify (JObject [("method", JString method); ("params", JArray params);
                           ("id", JNumber id)]) +:+ line_feed.




(** * Properties *)

Example mini_parse_response :
  Mini.parse (wire_text "{'result':['ping'],'error':null,'id':7}")
  = Some (JObject [("result", JArray [JString "ping"]); ("error", JNull);
                   ("id", JNumber 7)]).
Proof. vm_compute. reflexivity. Qed.

Example mini_stringify_request :
  Mini.stringify (JObject [("method", JString "echo");
                           ("params", JArray [JString "ping"]); ("id", JNumber 7)])
  = wire_text "{'method':'echo','params':['ping'],'id':7}".
Proof. vm_compute. reflexivity. Qed.


(** ** The loop of [_cleanup] *)

Lemma settle_in_settled (p q : nat) (o x : Outcome) (store : gmap nat Outcome) :
  store !! q = Some x → settle_in p o store !! q = Some x.
Proof.
  intros Hq. unfold settle_in. destruct (store !! p) eqn:Hp; [done|].
  rewrite lookup_insert_ne; [done|]. intros ->. congruence.
Qed.

Lemma settle_in_fresh (p : nat) (o : Outcome) (store : gmap nat Outcome) :
  store !! p = None → settle_in p o store !! p = Some o.
Proof. intros Hp. unfold settle_in. rewrite Hp. apply lookup_insert_eq. Qed.

Lemma settle_in_other (p q : nat) (o : Outcome) (store : gmap nat Outcome) :
  p ≠ q → settle_in p o store !! q = store !! q.
Proof.
  intros Hne. unfold settle_in. destruct (store !! p); [done|].
  by rewrite lookup_insert_ne.
Qed.

Lemma settle_in_inv (p q : nat) (o x : Outcome) (store : gmap nat Outcome) :
  settle_in p o store !! q = Some x →
  store !! q = Some x ∨ (q = p ∧ x = o ∧ store !! p = None).
Proof.
  unfold settle_in. destruct (store !! p) eqn:Hp; [auto|].
  destruct (decide (p = q)) as [<-|Hne].
  - rewrite lookup_insert_eq. intros [= <-]. auto.
  - rewrite lookup_insert_ne; auto.
Qed.

Lemma reject_all_frame (l : list (Z * PendingCall)) (w : World) :
  let w' := foldl reject_closed w l in
  socketPath w' = socketPath w ∧ timeout w' = timeout w ∧ socket w' = socket w
  ∧ requestId w' = requestId w ∧ pendingRequests w' = pendingRequests w
  ∧ isConnected w' = isConnected w ∧ nextPromise w' = nextPromise w
  ∧ nextTimer w' = nextTimer w ∧ writes w' = writes w ∧ nextWrite w' = nextWrite w
  ∧ sockets w' = sockets w ∧ nextSocket w' = nextSocket w ∧ console w' = console w
  ∧ wire w' = wire w ∧ delays w' = delays w.
Proof.
  revert w. induction l as [|e l IH]; intros w; simpl; [by repeat split|].
  specialize (IH (reject_closed w e)). simpl in IH. exact IH.
Qed.

Lemma reject_all_timers_sub (l : list (Z * PendingCall)) (w : World) t c :
  timers (foldl reject_closed w l) !! t = Some c →
  timers w !! t = Some c ∧ ∀ e, e ∈ l → timeoutId e.2 ≠ t.
Proof.
  revert w. induction l as [|e l IH]; intros w; simpl.
  - intros Ht. split; [done|]. intros e He. by apply elem_of_nil in He.
  - intros Ht. apply IH in Ht as [Ht Hl]. simpl in Ht.
    apply lookup_delete_Some in Ht as [Hne Ht]. split; [done|].
    intros e' [->|He']%elem_of_cons; auto.
Qed.

Lemma reject_all_timers_keep (l : list (Z * PendingCall)) (w : World) t :
  (∀ e, e ∈ l → timeoutId e.2 ≠ t) →
  timers (foldl reject_closed w l) !! t = timers w !! t.
Proof.
  revert w. induction l as [|e l IH]; intros w Hl; simpl; [done|].
  rewrite IH.
  - simpl. apply lookup_delete_ne. apply Hl. left.
  - intros e' He'. apply Hl. by right.
Qed.

Lemma reject_all_settled (l : list (Z * PendingCall)) (w : World) p o :
  promises w !! p = Some o → promises (foldl reject_closed w l) !! p = Some o.
Proof.
  revert w. induction l as [|e l IH]; intros w Hp; simpl; [done|].
  apply IH. simpl. by apply settle_in_settled.
Qed.

Lemma reject_all_closed (l : list (Z * PendingCall)) (w : World) e :
  e ∈ l → promises w !! deferred e.2 = None →
  promises (foldl reject_closed w l) !! deferred e.2 = Some ConnectionClosed.
Proof.
  revert w. induction l as [|e' l IH]; intros w He Hp; simpl.
  - by apply elem_of_nil in He.
  - destruct (decide (deferred e'.2 = deferred e.2)) as [Heq|Hne].
    + apply reject_all_settled. simpl. rewrite Heq. by apply settle_in_fresh.
    + apply elem_of_cons in He as [->|He]; [done|].
      apply IH; [done|]. simpl. by rewrite settle_in_other.
Qed.

Lemma reject_all_promises_inv (l : list (Z * PendingCall)) (w : World) p o :
  promises (foldl reject_closed w l) !! p = Some o →
  promises w !! p = Some o ∨ (o = ConnectionClosed ∧ ∃ e, e ∈ l ∧ deferred e.2 = p).
Proof.
  revert w. induction l as [|e l IH]; intros w; simpl; [auto|].
  intros Hp. apply IH in Hp as [Hp|[-> (e' & He' & <-)]].
  - simpl in Hp. apply settle_in_inv in Hp as [Hp|(-> & -> & _)]; [auto|].
    right. split; [done|]. exists e. split; [left|done].
  - right. split; [done|]. exists e'. split; [by right|done].
Qed.

(** ** [_cleanup] *)

(** The state in which the loop of [_cleanup] starts. *)
Lemma cleanup_loop (w : World) :
  ∃ w1, _cleanup w
        = set_pendingRequests ∅ (foldl reject_closed w1 (map_to_list (pendingRequests w)))
    ∧ isConnected w1 = false ∧ socket w1 = None
    ∧ pendingRequests w1 = pendingRequests w ∧ requestId w1 = requestId w
    ∧ promises w1 = promises w ∧ nextPromise w1 = nextPromise w
    ∧ timers w1 = timers w ∧ nextTimer w1 = nextTimer w
    ∧ writes w1 = writes w ∧ nextWrite w1 = nextWrite w
    ∧ nextSocket w1 = nextSocket w ∧ console w1 = console w ∧ wire w1 = wire w
    ∧ socketPath w1 = socketPath w ∧ timeout w1 = timeout w ∧ delays w1 = delays w
    ∧ sockets w1 = match socket w with
                   | Some n => alter mark_destroyed n (sockets w)
                   | None => sockets w
                   end.
Proof.
  unfold _cleanup. simpl. destruct (socket w) as [n|] eqn:Hs; simpl.
  - exists (set_socket None (destroy n (set_isConnected false w))).
    by repeat split.
  - exists (set_isConnected false w). by repeat split.
Qed.

Lemma cleanup_frame (w : World) :
  let w' := _cleanup w in
  isConnected w' = false ∧ socket w' = None ∧ pendingRequests w' = ∅
  ∧ requestId w' = requestId w ∧ nextPromise w' = nextPromise w
  ∧ nextTimer w' = nextTimer w ∧ writes w' = writes w
  ∧ nextWrite w' = nextWrite w ∧ nextSocket w' = nextSocket w
  ∧ console w' = console w ∧ wire w' = wire w
  ∧ socketPath w' = socketPath w ∧ timeout w' = timeout w
  ∧ delays w' = delays w
  ∧ sockets w' = match socket w with
                 | Some n => alter mark_destroyed n (sockets w)
                 | None => sockets w
                 end.
Proof.
  destruct (cleanup_loop w) as (w1 & -> & E). simpl.
  pose proof (reject_all_frame (map_to_list (pendingRequests w)) w1) as F.
  simpl in F. destruct_and!. repeat split; congruence.
Qed.

Lemma cleanup_timers_sub (w : World) t c :
  timers (_cleanup w) !! t = Some c →
  timers w !! t = Some c
  ∧ ∀ id pc, pendingRequests w !! id = Some pc → timeoutId pc ≠ t.
Proof.
  destruct (cleanup_loop w) as (w1 & -> & E). destruct_and!. simpl.
  intros [Ht Hl]%reject_all_timers_sub.
  split; [congruence|]. intros id pc Hpc.
  apply (Hl (id, pc)). by apply elem_of_map_to_list.
Qed.

Lemma cleanup_timers_keep (w : World) t :
  (∀ id pc, pendingRequests w !! id = Some pc → timeoutId pc ≠ t) →
  timers (_cleanup w) !! t = timers w !! t.
Proof.
  intros Hl. destruct (cleanup_loop w) as (w1 & -> & E). destruct_and!. simpl.
  rewrite reject_all_timers_keep; [congruence|].
  intros [id pc] He%elem_of_map_to_list. by eapply Hl.
Qed.

Lemma cleanup_settled (w : World) p o :
  promises w !! p = Some o → promises (_cleanup w) !! p = Some o.
Proof.
  intros Hp. destruct (cleanup_loop w) as (w1 & -> & E). destruct_and!. simpl.
  apply reject_all_settled. congruence.
Qed.

Lemma cleanup_closed (w : World) id pc :
  pendingRequests w !! id = Some pc → promises w !! deferred pc = None →
  promises (_cleanup w) !! deferred pc = Some ConnectionClosed.
Proof.
  intros Hpc Hp. destruct (cleanup_loop w) as (w1 & -> & E). destruct_and!. simpl.
  apply (reject_all_closed _ _ (id, pc)); [|simpl; congruence].
  by apply elem_of_map_to_list.
Qed.

Lemma cleanup_promises_inv (w : World) p o :
  promises (_cleanup w) !! p = Some o →
  promises w !! p = Some o
  ∨ (o = ConnectionClosed ∧ ∃ id pc, pendingRequests w !! id = Some pc ∧ deferred pc = p).
Proof.
  destruct (cleanup_loop w) as (w1 & -> & E). destruct_and!. simpl.
  intros [Hp|[-> ([id pc] & He & <-)]]%reject_all_promises_inv.
  - left. congruence.
  - right. split; [done|]. exists id, pc. split; [|done].
    by apply elem_of_map_to_list.
Qed.

Opaque _cleanup.

(** ** The invariant holds in every state *)

Lemma increment_spec (n : Z) :
  (n ≤ increment n ≤ n + 1
   ∧ (increment n ≤ MAX_SAFE_INTEGER → n < MAX_SAFE_INTEGER ∧ increment n = n + 1)
   ∧ (n ≤ MAX_SAFE_INTEGER → increment n = n + 1)
   ∧ (MAX_SAFE_INTEGER < n → increment n = n))%Z.
Proof.
  unfold increment. destruct (Z.leb_spec n MAX_SAFE_INTEGER); lia.
Qed.

Lemma Inv_new (options : OvsdbClientOptions) : Inv (new_OVSDBClient options).
Proof. by constructor. Qed.

Lemma WriteAgrees_core (w w' : World) (cb : WriteCallback) :
  same_core w w' → WriteAgrees w cb → WriteAgrees w' cb.
Proof.
  intros (Hs & Hr & Hp & Hc & Hpr & Hnp & Ht & Hnt & Hw & Hss & Hns) [].
  constructor; rewrite ?Hs, ?Hr, ?Hp, ?Hc, ?Hpr, ?Hnp, ?Ht, ?Hnt, ?Hw; done.
Qed.

Lemma SocketAgrees_core (w w' : World) (s : Socket) :
  same_core w w' → SocketAgrees w s → SocketAgrees w' s.
Proof.
  intros (Hs & Hr & Hp & Hc & Hpr & Hnp & Ht & Hnt & Hw & Hss & Hns) [].
  constructor; rewrite ?Hs, ?Hr, ?Hp, ?Hc, ?Hpr, ?Hnp, ?Ht, ?Hnt, ?Hw; done.
Qed.

Lemma Inv_core (w w' : World) : same_core w w' → Inv w → Inv w'.
Proof.
  intros Hcore HI.
  pose proof Hcore as (Hs & Hr & Hp & Hc & Hpr & Hnp & Ht & Hnt & Hw & Hss & Hns).
  destruct HI.
  constructor;
    rewrite ?Hs, ?Hr, ?Hp, ?Hc, ?Hpr, ?Hnp, ?Ht, ?Hnt, ?Hw, ?Hss, ?Hns; try done.
  - intros n s Hn. eapply SocketAgrees_core; eauto.
  - intros wr cb Hcb. eapply WriteAgrees_core; eauto.
Qed.

Lemma Inv_print (line : ConsoleLine) (w : World) : Inv w → Inv (print line w).
Proof. apply Inv_core. by repeat split. Qed.

Lemma Inv_newPromise (w : World) : Inv w → Inv (newPromise w).2.
Proof.
  intros HI. inv_fields HI. constructor; simpl; try done.
  - intros p o Hp. apply Hpf in Hp. lia.
  - intros id pc Hpc. apply Hdf in Hpc. lia.
  - intros t id m p Ht. apply Htd in Ht. lia.
  - intros t p Ht. apply Htof in Ht. lia.
  - intros n s Hs. destruct (Hsa _ _ Hs) as [S1 S2 S3 S4 S5].
    constructor; simpl; try done; [lia|]. intros p Hp. apply S3 in Hp. lia.
  - intros wr cb Hcb. destruct (Hwr _ _ Hcb). constructor; simpl; try done. lia.
Qed.

Lemma Inv_settle (p : nat) (o : Outcome) (w : World) :
  Inv w → (p < nextPromise w)%nat →
  (∀ id pc, pendingRequests w !! id = Some pc → deferred pc ≠ p) →
  Inv (settle p o w).
Proof.
  intros HI Hp Hfree. inv_fields HI. constructor; simpl; try done.
  - intros id pc Hpc. rewrite settle_in_other; [eauto|].
    intros ->. by eapply Hfree.
  - intros q x [Hq|(-> & _)]%settle_in_inv; eauto.
  - intros n s Hs. destruct (Hsa _ _ Hs). by constructor.
  - intros wr cb Hcb. destruct (Hwr _ _ Hcb). by constructor.
Qed.

Lemma OneCall_pending (w : World) (id : Z) (pc : PendingCall) :
  Inv w → pendingRequests w !! id = Some pc →
  OneCall w id (timeoutId pc) (deferred pc).
Proof.
  intros HI Hpc. inv_fields HI. constructor.
  - intros _ pc' Hpc'. rewrite Hpc in Hpc'. injection Hpc' as <-. by destruct pc.
  - intros id' pc' Hpc' Heq. by eapply Hdis.
  - intros c Hc. destruct (Harm _ _ Hpc) as [m Hm]. exists m. congruence.
Qed.

Lemma OneCall_write (w : World) (wr : nat) (cb : WriteCallback) :
  Inv w → writes w !! wr = Some cb →
  OneCall w (w_id cb) (w_timeoutId cb) (w_deferred cb).
Proof. intros HI Hcb. destruct (inv_write _ HI _ _ Hcb). by constructor. Qed.

Lemma OneCall_timer (w : World) (t : nat) (id : Z) (m : string) (p : nat) :
  Inv w → timers w !! t = Some (RequestTimer id m p) → OneCall w id t p.
Proof.
  intros HI Ht. constructor.
  - intros Hb pc Hpc. pose proof (inv_timer _ HI _ _ _ _ Ht Hb). congruence.
  - intros id' pc Hpc Heq. by eapply (inv_timer_promise _ HI).
  - intros c Hc. exists m. congruence.
Qed.

Lemma Inv_forget (id : Z) (t p : nat) (w : World) :
  Inv w → OneCall w id t p →
  Inv (forget id t w)
  ∧ ∀ id' pc, pendingRequests (forget id t w) !! id' = Some pc → deferred pc ≠ p.
Proof.
  intros HI [Hentry Hprom Htimer]. inv_fields HI.
  split.
  - constructor; simpl; try done.
    + intros id' pc [Hne Hpc]%lookup_delete_Some. eauto.
    + intros id' pc [Hne Hpc]%lookup_delete_Some.
      destruct (Harm _ _ Hpc) as [m Hm]. exists m.
      rewrite lookup_delete_ne; [done|]. intros ->.
      destruct (Htimer _ Hm) as [m' [= -> _ _]]. done.
    + intros t' id' m q [Hne Ht']%lookup_delete_Some Hb.
      pose proof (Htim _ _ _ _ Ht' Hb) as Hpc.
      rewrite lookup_delete_ne; [done|]. intros ->.
      apply (Hentry Hb) in Hpc. injection Hpc as _ ->. done.
    + intros t' id1 m q id' pc [_ Ht']%lookup_delete_Some [_ Hpc]%lookup_delete_Some.
      eauto.
    + intros id' pc [Hne Hpc]%lookup_delete_Some. eauto.
    + intros id1 id2 pc1 pc2 [_ H1]%lookup_delete_Some [_ H2]%lookup_delete_Some.
      eauto.
    + intros id' pc [Hne Hpc]%lookup_delete_Some. eauto.
    + intros t' cb [Hne Ht']%lookup_delete_Some. eauto.
    + intros id' pc [Hne Hpc]%lookup_delete_Some. eauto.
    + intros t' id' m q [Hne Ht']%lookup_delete_Some. eauto.
    + intros t' q [Hne Ht']%lookup_delete_Some. eauto.
    + intros n s Hs. destruct (Hsa _ _ Hs) as [S1 S2 S3 S4 S5].
      constructor; simpl; try done.
      * intros c [_ Hc]%lookup_delete_Some. eauto.
      * intros id' pc [_ Hpc]%lookup_delete_Some. eauto.
    + intros wr cb Hcb. destruct (Hwr _ _ Hcb). constructor; simpl; try done.
      * intros Hb pc [Hne Hpc]%lookup_delete_Some. eauto.
      * intros id' pc [Hne Hpc]%lookup_delete_Some. eauto.
      * intros c [Hne Hc]%lookup_delete_Some. eauto.
  - simpl. intros id' pc [Hne Hpc]%lookup_delete_Some Heq.
    apply Hne. symmetry. eauto.
Qed.

(** A socket of the state in which [_cleanup] leaves the sockets of [w0]. *)
Lemma cleanup_sockets (w0 : World) (n : nat) (s : Socket) :
  sockets (_cleanup w0) !! n = Some s →
  ∃ s0, sockets w0 !! n = Some s0
        ∧ (s = s0 ∨ s = mark_destroyed s0)
        ∧ (socket w0 ≠ Some n → s = s0).
Proof.
  destruct (cleanup_frame w0) as (_ & _ & _ & _ & _ & _ & _ & _ & _ & _ & _ & _ & _
                                  & _ & ->).
  destruct (socket w0) as [n0|].
  - intros [(-> & s0 & Hs0 & ->)|[Hne Hs]]%lookup_alter_Some.
    + exists s0. split; [done|]. split; [by right|]. by intros [].
    + exists s. split; [done|]. split; [by left|done].
  - intros Hs. exists s. split; [done|]. split; [by left|done].
Qed.

(** [_cleanup] restores the invariant even after timers were disarmed. *)
Lemma Inv_cleanup_of (w w0 : World) :
  Inv w →
  socket w0 = socket w → requestId w0 = requestId w →
  pendingRequests w0 = pendingRequests w → promises w0 = promises w →
  nextPromise w0 = nextPromise w → nextTimer w0 = nextTimer w →
  writes w0 = writes w → sockets w0 = sockets w → nextSocket w0 = nextSocket w →
  timers w0 ⊆ timers w →
  Inv (_cleanup w0).
Proof.
  intros HI Es Er Ep Epr Enp Ent Ew Ess Ens Hsub. inv_fields HI.
  destruct (cleanup_frame w0) as (Fc & Fs & Fp & Fr & Fnp & Fnt & Fw & _ & Fns & _).
  constructor; rewrite ?Fc, ?Fs, ?Fp, ?Fr, ?Fnp, ?Fnt, ?Fw, ?Fns,
    ?Er, ?Enp, ?Ent, ?Ew, ?Ens; try done.
  - intros t id m p [Ht Hno]%cleanup_timers_sub Hb. exfalso.
    eapply lookup_weaken in Ht; [|done]. apply Htim in Ht; [|done].
    rewrite Ep in Hno. by apply (Hno _ _ Ht).
  - intros p o [Hp|[_ (id & pc & Hpc & <-)]]%cleanup_promises_inv.
    + rewrite Epr in Hp. eauto.
    + rewrite Ep in Hpc. eauto.
  - intros t cb [Ht _]%cleanup_timers_sub. eapply lookup_weaken in Ht; eauto.
  - intros t id m p [Ht _]%cleanup_timers_sub. eapply lookup_weaken in Ht; eauto.
  - intros t p [Ht _]%cleanup_timers_sub. eapply lookup_weaken in Ht; eauto.
  - intros n s (s0 & Hs0 & Hs & _)%cleanup_sockets. rewrite Ess in Hs0.
    destruct (Hsa _ _ Hs0) as [S1 S2 S3 S4 S5].
    assert (SocketAgrees (_cleanup w0) s0) as Hgoal.
    { constructor; rewrite ?Fp, ?Fnp, ?Fnt, ?Enp, ?Ent; try done.
      intros c [Ht _]%cleanup_timers_sub. eapply lookup_weaken in Ht; eauto. }
    destruct Hs as [->| ->]; [done|]. destruct Hgoal. by constructor.
  - intros n s (s0 & Hs0 & _)%cleanup_sockets. rewrite Ess in Hs0. eauto.
  - intros wr cb Hcb. destruct (Hwr _ _ Hcb) as [W1 W2 W3 W4 W5 W6].
    constructor; rewrite ?Fp, ?Fr, ?Fnp, ?Fnt, ?Er, ?Enp, ?Ent; try done.
    intros c [Ht _]%cleanup_timers_sub. eapply lookup_weaken in Ht; eauto.
Qed.

Lemma Inv_cleanup (w : World) : Inv w → Inv (_cleanup w).
Proof. intros HI. by apply (Inv_cleanup_of w w). Qed.

Lemma Inv_cleanup_clear (t : nat) (w : World) :
  Inv w → Inv (_cleanup (clearTimeout t w)).
Proof.
  intros HI. apply (Inv_cleanup_of w); try done. simpl. apply delete_subseteq.
Qed.

Lemma Inv_settle_fresh (o : Outcome) (w : World) :
  Inv w → Inv (settle (nextPromise w) o (newPromise w).2).
Proof.
  intros HI. apply Inv_settle.
  - by apply Inv_newPromise.
  - simpl. lia.
  - simpl. intros id pc Hpc. apply (inv_deferred_fresh _ HI) in Hpc. lia.
Qed.

Lemma Inv_settle_idle (p : nat) (o : Outcome) (w : World) :
  Inv w → pendingRequests w = ∅ → (p < nextPromise w)%nat → Inv (settle p o w).
Proof.
  intros HI Hempty Hp. apply Inv_settle; [done..|].
  intros id pc. by rewrite Hempty, lookup_empty.
Qed.

Lemma Inv_connect (existsSync : bool) (w : World) :
  Inv w → Inv (connect existsSync w).2.
Proof.
  intros HI. unfold connect. simpl.
  destruct (isConnected w) eqn:Hc; [by apply Inv_settle_fresh|].
  destruct existsSync; simpl; [|by apply Inv_settle_fresh].
  inv_fields HI.
  assert (Hidle : ∀ id pc, pendingRequests w !! id = Some pc → False).
  { intros id pc Hpc. apply Hcon in Hpc. congruence. }
  constructor; simpl.
  - done.
  - done.
  - intros id pc Hpc. destruct (Hidle _ _ Hpc).
  - intros t id m p. rewrite lookup_insert. case_decide; [done|]. apply Htim.
  - intros t id m p id' pc _ Hpc. destruct (Hidle _ _ Hpc).
  - done.
  - done.
  - done.
  - intros p o Hp. apply Hpf in Hp. lia.
  - intros t cb. rewrite lookup_insert. case_decide; [lia|].
    intros Ht. apply Htf in Ht. lia.
  - intros id pc Hpc. apply Hdf in Hpc. lia.
  - intros t id m p. rewrite lookup_insert. case_decide; [done|].
    intros Ht. apply Htd in Ht. lia.
  - intros t p. rewrite lookup_insert. case_decide.
    + intros [= <-]. lia.
    + intros Ht. apply Htof in Ht. lia.
  - intros n s. rewrite lookup_insert. case_decide.
    + intros [= <-]. constructor; simpl; try lia.
      * intros p Hp. by apply elem_of_nil in Hp.
      * intros c. rewrite lookup_insert_eq. by intros [= <-].
      * intros id pc Hpc. destruct (Hidle _ _ Hpc).
    + intros Hs. destruct (Hsa _ _ Hs) as [S1 S2 S3 S4 S5].
      constructor; simpl; try lia; try done.
      * intros p Hp. apply S3 in Hp. lia.
      * intros c. rewrite lookup_insert_ne by lia. eauto.
  - intros n s. rewrite lookup_insert. case_decide; [lia|].
    intros Hs. apply Hsf in Hs. lia.
  - intros n [= <-]. eexists. rewrite lookup_insert_eq. done.
  - intros wr cb Hcb. destruct (Hwr _ _ Hcb) as [W1 W2 W3 W4 W5 W6].
    constructor; simpl; [lia|lia|done|done|done|].
    intros c. rewrite lookup_insert_ne by lia. eauto.
Qed.

Lemma Inv_reject_type (p : nat) (w : World) :
  Inv w → (p < nextPromise w)%nat → Inv (settle p (Rejected TypeError) w).
Proof.
  intros HI Hp. inv_fields HI. constructor; simpl; try done.
  - intros id pc Hpc. destruct (decide (deferred pc = p)) as [<-|Hne].
    + destruct (Huns _ _ Hpc) as [Hu|Hu].
      * right. by apply settle_in_fresh.
      * right. by apply settle_in_settled.
    + rewrite settle_in_other by done. eauto.
  - intros q x [Hq|(-> & _)]%settle_in_inv; eauto.
  - intros n s Hs. destruct (Hsa _ _ Hs). by constructor.
  - intros wr cb Hcb. destruct (Hwr _ _ Hcb). by constructor.
Qed.

Lemma Inv_socket_write (n : nat) (frame : string) (cb : WriteCallback) (w : World) :
  Inv w → WriteAgrees w cb → Inv (socket_write n frame cb w).
Proof.
  intros HI Hcb. inv_fields HI. constructor; simpl; try done.
  - intros n' s Hs. destruct (Hsa _ _ Hs). by constructor.
  - intros wr cb'. rewrite lookup_insert. case_decide.
    + intros [= <-]. destruct Hcb. by constructor.
    + intros Hcb'. destruct (Hwr _ _ Hcb'). by constructor.
Qed.

Lemma Inv_request `{JsRuntime} (method : string) (params : list JsonValue)
    (w : World) :
  Inv w → Inv (request method params w).2.
Proof.
  intros HI. unfold request. simpl.
  destruct (isConnected w) eqn:Hc; simpl; [|by apply Inv_settle_fresh].
  pose proof (increment_spec (requestId w)) as (I1 & I2 & I3 & I4).
  inv_fields HI.
  assert (promises w !! nextPromise w = None) as Hnew.
  { destruct (promises w !! nextPromise w) eqn:Hp; [|done]. apply Hpf in Hp. lia. }
  set (w1 := set_pendingRequests _ _).
  assert (Inv w1) as HI1; [subst w1; constructor; simpl|].
  - lia.
  - intros id pc. rewrite lookup_insert. case_decide.
    + intros _. lia.
    + intros Hpc. apply Hids in Hpc. lia.
  - intros id pc. rewrite lookup_insert. case_decide as Hid.
    + intros [= <-]. simpl. subst id. exists method. apply lookup_insert_eq.
    + intros Hpc. destruct (Harm _ _ Hpc) as [m Hm]. exists m.
      apply Htf in Hm as Hlt. rewrite lookup_insert_ne by lia. done.
  - intros t id m p. rewrite lookup_insert. case_decide as Ht.
    + intros [= <- <- <-] _. subst t. apply lookup_insert_eq.
    + intros Hm Hb. pose proof (Htim _ _ _ _ Hm Hb) as Hpc.
      apply Hids in Hpc as Hlt. rewrite lookup_insert_ne by lia. done.
  - intros t id m p id' pc. rewrite !lookup_insert. repeat case_decide.
    + intros [= <- _ _] _ _. congruence.
    + intros [= <- <- <-] Hpc Heq. apply Hdf in Hpc. lia.
    + intros Ht [= <-] Heq. apply Htd in Ht. simpl in Heq. lia.
    + eauto.
  - intros id pc. rewrite lookup_insert. case_decide.
    + intros [= <-]. by left.
    + eauto.
  - intros id1 id2 pc1 pc2 H1 H2 Heq. rewrite lookup_insert in H1, H2.
    repeat case_decide; simplify_eq/=; try done;
      try (apply Hdf in H1; simpl in *; lia);
      try (apply Hdf in H2; simpl in *; lia); eauto.
  - done.
  - intros p o Hp. apply Hpf in Hp. lia.
  - intros t cb. rewrite lookup_insert. case_decide; [lia|].
    intros Ht. apply Htf in Ht. lia.
  - intros id pc. rewrite lookup_insert. case_decide.
    + intros [= <-]. simpl. lia.
    + intros Hpc. apply Hdf in Hpc. lia.
  - intros t id m p. rewrite lookup_insert. case_decide.
    + intros [= <- <- <-]. lia.
    + intros Ht. apply Htd in Ht. lia.
  - intros t p. rewrite lookup_insert. case_decide; [done|].
    intros Ht. apply Htof in Ht. lia.
  - intros n s Hs. destruct (Hsa _ _ Hs) as [S1 S2 S3 S4 S5].
    constructor; simpl; try lia.
    + intros p Hp. apply S3 in Hp. lia.
    + intros c. rewrite lookup_insert_ne by lia. eauto.
    + intros id pc. rewrite lookup_insert. case_decide.
      * intros [= <-]. simpl. lia.
      * eauto.
  - done.
  - done.
  - intros wr cb Hcb. destruct (Hwr _ _ Hcb) as [W1 W2 W3 W4 W5 W6].
    constructor; simpl; [lia|lia|lia|..].
    + intros Hb pc. rewrite lookup_insert_ne by lia. by apply W4.
    + intros id pc. rewrite lookup_insert. case_decide.
      * intros [= <-]. simpl. lia.
      * eauto.
    + intros c. rewrite lookup_insert_ne by lia. eauto.
  - assert (nextPromise w1 = S (nextPromise w)) as Enp by done.
    assert (WriteAgrees w1 {| w_timeoutId := nextTimer w; w_id := requestId w;
                              w_deferred := nextPromise w |}) as Hcb.
    { subst w1. constructor; simpl; [lia|lia|lia|..].
      - intros _ pc. rewrite lookup_insert_eq. by intros [= <-].
      - intros id pc. rewrite lookup_insert. case_decide; [done|].
        intros Hpc Heq. apply Hdf in Hpc. lia.
      - intros c. rewrite lookup_insert_eq. intros [= <-]. by exists method. }
    clearbody w1. destruct (socket w) as [n|]; simpl.
    + by apply Inv_socket_write.
    + apply Inv_reject_type; [done|lia].
Qed.

Lemma Inv_listen (n p : nat) (w : World) :
  Inv w → (p < nextPromise w)%nat → Inv (once_close_listener n p w).
Proof.
  intros HI Hp. inv_fields HI. constructor; simpl; try done.
  - intros n' s [(-> & s0 & Hs0 & ->)|[Hne Hs]]%lookup_alter_Some.
    + destruct (Hsa _ _ Hs0) as [S1 S2 S3 S4 S5]. constructor; simpl; try done.
      intros q [Hq|Hq%list_elem_of_singleton]%elem_of_app; [eauto|by subst].
    + destruct (Hsa _ _ Hs). by constructor.
  - intros n' s [(-> & s0 & Hs0 & ->)|[Hne Hs]]%lookup_alter_Some; eauto.
  - intros n' Hn'. destruct (Hts _ Hn') as (s & Hs & Hd).
    destruct (decide (n = n')) as [->|Hne].
    + exists (add_once_close p s). by rewrite lookup_alter_eq, Hs.
    + exists s. by rewrite lookup_alter_ne.
  - intros wr cb Hcb. destruct (Hwr _ _ Hcb). by constructor.
Qed.

Lemma cleanup_empty (w : World) : pendingRequests (_cleanup w) = ∅.
Proof. apply cleanup_frame. Qed.

Lemma cleanup_nextPromise (w : World) : nextPromise (_cleanup w) = nextPromise w.
Proof. apply cleanup_frame. Qed.

Lemma Inv_asyncDispose (closed : bool) (w : World) :
  Inv w → Inv (asyncDispose closed w).2.
Proof.
  intros HI. unfold asyncDispose. simpl.
  destruct (isConnected w); simpl; [|by apply Inv_settle_fresh].
  apply Inv_cleanup. destruct (socket w) as [n|]; [|by apply Inv_settle_fresh].
  destruct (is_destroyed n _ || closed); [by apply Inv_settle_fresh|].
  apply (Inv_listen _ _ (newPromise w).2); [by apply Inv_newPromise|simpl; lia].
Qed.

Lemma Inv_on_connect (n : nat) (s : Socket) (w : World) :
  Inv w → sockets w !! n = Some s → Inv (on_connect n s w).
Proof.
  intros HI Hs. pose proof (inv_socket _ HI _ _ Hs) as [S1 S2 S3 S4 S5].
  unfold on_connect. apply Inv_settle; [|done|done].
  inv_fields HI. constructor; simpl; try done.
  - intros id pc Hpc. destruct (Harm _ _ Hpc) as [m Hm]. exists m.
    rewrite lookup_delete_ne; [done|]. intros Heq. rewrite <- Heq in Hm.
    by apply S4 in Hm.
  - intros t id m p [_ Ht]%lookup_delete_Some Hb. by apply (Htim _ _ m).
  - intros t id m p id' pc [_ Ht]%lookup_delete_Some. eauto.
  - intros t cb [_ Ht]%lookup_delete_Some. eauto.
  - intros t id m p [_ Ht]%lookup_delete_Some. eauto.
  - intros t p [_ Ht]%lookup_delete_Some. eauto.
  - intros n' s'. rewrite lookup_insert. case_decide.
    + intros [= <-]. constructor; simpl; try done.
      intros c [_ Ht]%lookup_delete_Some. eauto.
    + intros Hs'. destruct (Hsa _ _ Hs') as [T1 T2 T3 T4 T5].
      constructor; simpl; try done.
      intros c [_ Ht]%lookup_delete_Some. eauto.
  - intros n' s'. rewrite lookup_insert. case_decide; [|eauto].
    intros _. subst n'. eauto.
  - intros n' Hn'. destruct (Hts _ Hn') as (s' & Hs' & Hd).
    rewrite lookup_insert. case_decide.
    + subst n'. exists (mark_connected s). split; [done|]. simpl. congruence.
    + by exists s'.
  - intros wr cb Hcb. destruct (Hwr _ _ Hcb) as [W1 W2 W3 W4 W5 W6].
    constructor; simpl; try done.
    intros c [_ Ht]%lookup_delete_Some. eauto.
Qed.

Lemma Inv_on_error (n : nat) (s : Socket) (err : JsError) (w : World) :
  Inv w → sockets w !! n = Some s → Inv (on_error s err w).
Proof.
  intros HI Hs. unfold on_error. apply Inv_settle_idle.
  - by apply Inv_cleanup_clear.
  - apply cleanup_empty.
  - rewrite cleanup_nextPromise. simpl. by destruct (inv_socket _ HI _ _ Hs).
Qed.

Lemma settle_all_frame (l : list nat) (o : Outcome) (w : World) :
  let w' := foldl (λ w p, settle p o w) w l in
  sockets w' = sockets w ∧ nextSocket w' = nextSocket w
  ∧ pendingRequests w' = pendingRequests w ∧ timers w' = timers w
  ∧ isConnected w' = isConnected w ∧ socket w' = socket w
  ∧ nextPromise w' = nextPromise w ∧ requestId w' = requestId w
  ∧ wire w' = wire w ∧ writes w' = writes w.
Proof.
  revert w. induction l as [|p l IH]; intros w; simpl; [by repeat split|].
  specialize (IH (settle p o w)). simpl in IH. exact IH.
Qed.

Lemma Inv_settle_all (l : list nat) (o : Outcome) (w : World) :
  Inv w → pendingRequests w = ∅ → (∀ p, p ∈ l → (p < nextPromise w)%nat) →
  Inv (foldl (λ w p, settle p o w) w l).
Proof.
  revert w. induction l as [|p l IH]; intros w HI Hempty Hl; simpl; [done|].
  apply IH.
  - apply Inv_settle_idle; [done..|]. apply Hl. left.
  - done.
  - intros q Hq. simpl. apply Hl. by right.
Qed.

Lemma Inv_unlisten (n : nat) (w : World) :
  Inv w → Inv (set_sockets (alter drop_once_close n (sockets w)) (nextSocket w) w).
Proof.
  intros HI. inv_fields HI. constructor; simpl; try done.
  - intros n' s [(-> & s0 & Hs0 & ->)|[Hne Hs]]%lookup_alter_Some.
    + destruct (Hsa _ _ Hs0) as [S1 S2 S3 S4 S5]. constructor; simpl; try done.
      intros q Hq. by apply elem_of_nil in Hq.
    + destruct (Hsa _ _ Hs). by constructor.
  - intros n' s [(-> & s0 & Hs0 & ->)|[Hne Hs]]%lookup_alter_Some; eauto.
  - intros n' Hn'. destruct (Hts _ Hn') as (s & Hs & Hd).
    destruct (decide (n = n')) as [->|Hne].
    + exists (drop_once_close s). by rewrite lookup_alter_eq, Hs.
    + exists s. by rewrite lookup_alter_ne.
  - intros wr cb Hcb. destruct (Hwr _ _ Hcb). by constructor.
Qed.

Lemma Inv_on_close (n : nat) (s : Socket) (w : World) :
  Inv w → sockets w !! n = Some s → Inv (on_close n s w).
Proof.
  intros HI Hs. unfold on_close. apply Inv_unlisten.
  apply Inv_settle_all.
  - by apply Inv_cleanup.
  - apply cleanup_empty.
  - intros p Hp. rewrite cleanup_nextPromise.
    by apply (sa_listener_fresh _ _ (inv_socket _ HI _ _ Hs)).
Qed.

(** One call ends: entry and timer go, the promise is settled. *)
Lemma Inv_finish (id : Z) (t p : nat) (o : Outcome) (w : World) :
  Inv w → OneCall w id t p → (p < nextPromise w)%nat →
  Inv (settle p o (forget id t w)).
Proof.
  intros HI Hone Hp. destruct (Inv_forget id t p w HI Hone) as [HI' Hfree].
  by apply Inv_settle.
Qed.

Lemma Inv_on_timer `{JsRuntime} (t : nat) (w : World) : Inv w → Inv (on_timer t w).
Proof.
  intros HI. unfold on_timer. destruct (timers w !! t) as [[id m p|p]|] eqn:Ht; [| |done].
  - apply (Inv_finish id t p _ w HI).
    + by apply (OneCall_timer w t id m p).
    + apply (inv_timer_deferred _ HI _ _ _ _ Ht).
  - apply Inv_settle_idle.
    + by apply Inv_cleanup_clear.
    + apply cleanup_empty.
    + rewrite cleanup_nextPromise. simpl. by apply (inv_timeout_fresh _ HI t).
Qed.

Lemma Inv_written (wr : nat) (w : World) :
  Inv w → Inv (set_writes (delete wr (writes w)) (nextWrite w) w).
Proof.
  intros HI. inv_fields HI. constructor; simpl; try done.
  - intros n s Hs. destruct (Hsa _ _ Hs). by constructor.
  - intros wr' cb [_ Hcb]%lookup_delete_Some.
    destruct (Hwr _ _ Hcb). by constructor.
Qed.

Lemma Inv_on_written (wr : nat) (err : option JsError) (w : World) :
  Inv w → Inv (on_written wr err w).
Proof.
  intros HI. unfold on_written. destruct (writes w !! wr) as [cb|] eqn:Hcb; [|done].
  destruct err as [e|]; [|by apply Inv_written].
  destruct (OneCall_write w wr cb HI Hcb) as [O1 O2 O3].
  apply (Inv_finish (w_id cb) (w_timeoutId cb) (w_deferred cb) _
           (set_writes (delete wr (writes w)) (nextWrite w) w)).
  - by apply Inv_written.
  - by constructor.
  - simpl. by destruct (inv_write _ HI _ _ Hcb).
Qed.

(** A notification changes nothing but the console. *)
Lemma handleNotification_core (notification : JsonValue) (w : World) :
  same_core w (_handleNotification notification w).2.
Proof.
  unfold _handleNotification.
  destruct (negb (is_object notification) || negb (has_key "method" notification));
    [by repeat split|].
  destruct (prop "method" notification) as [[| | |kind| |]|]; try by repeat split.
  repeat (case_match; try by repeat split).
Qed.

Lemma Inv_handleNotification (notification : JsonValue) (w : World) :
  Inv w → Inv (_handleNotification notification w).2.
Proof. apply Inv_core, handleNotification_core. Qed.

Lemma Inv_handleResponse `{JsRuntime} (response : JsonValue) (w : World) :
  Inv w → Inv (_handleResponse response w).2.
Proof.
  intros HI. unfold _handleResponse.
  destruct (negb (is_object response) || negb (has_key "id" response));
    [by apply Inv_print|].
  destruct (number_key (prop "id" response)) as [id|];
    [|by apply Inv_handleNotification].
  destruct (pendingRequests w !! id) as [pc|] eqn:Hpc;
    [|by apply Inv_handleNotification].
  pose proof (OneCall_pending w id pc HI Hpc) as Hone.
  pose proof (inv_deferred_fresh _ HI _ _ Hpc) as Hfresh.
  destruct (if has_key "error" response then prop "error" response else None)
    as [e|]; [|by apply Inv_finish].
  assert (Inv (match ToString e with
               | Some s => (None, settle (deferred pc) (RpcError s)
                                     (forget id (timeoutId pc) w))
               | None => (Some TypeError, forget id (timeoutId pc) w)
               end).2) as Hgoal.
  { destruct (ToString e); simpl; [by apply Inv_finish|].
    by apply (Inv_forget id (timeoutId pc) (deferred pc)). }
  destruct e; [by apply Inv_finish|exact Hgoal..].
Qed.

Lemma Inv_handle_message `{JsRuntime} (w : World) (message : string) :
  Inv w → Inv (handle_message w message).
Proof.
  intros HI. unfold handle_message.
  destruct (String.eqb message EmptyString); [done|].
  destruct (JSON_parse message) as [response|]; [|by apply Inv_print].
  pose proof (Inv_handleResponse response w HI) as HI'.
  destruct (_handleResponse response w) as [[err|] w']; simpl in HI'; [|done].
  by apply Inv_print.
Qed.

Lemma Inv_handleData `{JsRuntime} (data : string) (w : World) :
  Inv w → Inv (_handleData data w).
Proof.
  unfold _handleData. generalize (split newline (trim data)). intros l.
  revert w. induction l as [|m l IH]; intros w HI; simpl; [done|].
  by apply IH, Inv_handle_message.
Qed.

Lemma Inv_handle `{JsRuntime} (e : Event) (w : World) : Inv w → Inv (handle e w).
Proof.
  intros HI. destruct e; simpl.
  - by apply Inv_connect.
  - by apply Inv_request.
  - by apply Inv_asyncDispose.
  - destruct (sockets w !! n) as [s|] eqn:Hs; [|done].
    destruct (connecting s) eqn:Hcg; [|done]. by apply Inv_on_connect.
  - destruct (sockets w !! n) as [s|] eqn:Hs; [|done]. by apply (Inv_on_error n).
  - destruct (sockets w !! n) as [s|] eqn:Hs; [|done]. by apply Inv_on_close.
  - destruct (sockets w !! n) as [s|] eqn:Hs; [|done]. by apply Inv_handleData.
  - by apply Inv_on_timer.
  - by apply Inv_on_written.
Qed.

Lemma reachable_Inv `{JsRuntime} (w : World) : reachable w → Inv w.
Proof.
  induction 1 as [options|w e _ IH]; [apply Inv_new|by apply Inv_handle].
Qed.

(** ** Later states *)

Lemma Grows_refl (w : World) : Grows w w.
Proof. by constructor. Qed.

Lemma Grows_trans (w1 w2 w3 : World) : Grows w1 w2 → Grows w2 w3 → Grows w1 w3.
Proof.
  intros [A1 A2 A3 A4 A5 A6] [B1 B2 B3 B4 B5 B6]. constructor.
  - lia.
  - lia.
  - lia.
  - intros t c Ht Hlt. apply A4; [|done]. apply B4; [done|lia].
  - intros id pc Hpc Hlt. apply A5; [|done]. apply B5; [done|lia].
  - eauto.
Qed.

Lemma Grows_core (w w' : World) : same_core w w' → Grows w w'.
Proof.
  intros (Hs & Hr & Hp & Hc & Hpr & Hnp & Ht & Hnt & Hw & Hss & Hns).
  constructor; rewrite ?Hr, ?Hp, ?Hpr, ?Hnp, ?Ht, ?Hnt; done.
Qed.

Lemma Grows_print (line : ConsoleLine) (w : World) : Grows w (print line w).
Proof. by constructor. Qed.

Lemma Grows_newPromise (w : World) : Grows w (newPromise w).2.
Proof. constructor; simpl; try done. lia. Qed.

Lemma Grows_settle (p : nat) (o : Outcome) (w : World) : Grows w (settle p o w).
Proof.
  constructor; simpl; try done. intros q x Hq. by apply settle_in_settled.
Qed.

Lemma Grows_forget (id : Z) (t : nat) (w : World) : Grows w (forget id t w).
Proof.
  constructor; simpl; try done.
  - by intros t' c [_ Ht]%lookup_delete_Some _.
  - by intros id' pc [_ Hpc]%lookup_delete_Some _.
Qed.

Lemma Grows_finish (id : Z) (t p : nat) (o : Outcome) (w : World) :
  Grows w (settle p o (forget id t w)).
Proof. eapply Grows_trans; [apply Grows_forget|apply Grows_settle]. Qed.

Lemma Grows_cleanup (w : World) : Grows w (_cleanup w).
Proof.
  destruct (cleanup_frame w) as (Fc & Fs & Fp & Fr & Fnp & Fnt & Fw & _).
  constructor; rewrite ?Fp, ?Fr, ?Fnp, ?Fnt; try done.
  - by intros t c [Ht _]%cleanup_timers_sub _.
  - intros p o. apply cleanup_settled.
Qed.

Lemma Grows_clearTimeout (t : nat) (w : World) : Grows w (clearTimeout t w).
Proof.
  constructor; simpl; try done. by intros t' c [_ Ht]%lookup_delete_Some _.
Qed.

Lemma Grows_settle_all (l : list nat) (o : Outcome) (w : World) :
  Grows w (foldl (λ w p, settle p o w) w l).
Proof.
  revert w. induction l as [|p l IH]; intros w; simpl; [apply Grows_refl|].
  eapply Grows_trans; [apply Grows_settle|apply IH].
Qed.

Lemma Grows_connect (existsSync : bool) (w : World) : Grows w (connect existsSync w).2.
Proof.
  unfold connect. simpl.
  assert (Grows w (settle (nextPromise w) (Fulfilled VThis) (newPromise w).2)) as G1.
  { eapply Grows_trans; [apply Grows_newPromise|apply Grows_settle]. }
  destruct (isConnected w); [exact G1|].
  destruct existsSync; simpl.
  - constructor; simpl; try done; try lia.
    intros t c. rewrite lookup_insert. case_decide; [lia|done].
  - eapply Grows_trans; [apply Grows_newPromise|apply Grows_settle].
Qed.

Lemma Grows_request `{JsRuntime} (method : string) (params : list JsonValue)
    (w : World) :
  Grows w (request method params w).2.
Proof.
  unfold request. simpl.
  destruct (isConnected w); simpl;
    [|eapply Grows_trans; [apply Grows_newPromise|apply Grows_settle]].
  assert (Grows w
            (set_pendingRequests
               (<[requestId w := {| deferred := nextPromise w; timeoutId := nextTimer w |}]>
                  (pendingRequests w))
               (setTimeout (RequestTimer (requestId w) method (nextPromise w))
                  (timeout w)
                  (set_requestId (increment (requestId w)) (newPromise w).2)).2)) as G.
  { pose proof (increment_spec (requestId w)).
    constructor; simpl; try done; try lia.
    - intros t c. rewrite lookup_insert. case_decide; [lia|done].
    - intros id pc. rewrite lookup_insert. case_decide; [lia|done]. }
  destruct (socket w); simpl.
  - eapply Grows_trans; [exact G|]. by constructor.
  - eapply Grows_trans; [exact G|]. apply Grows_settle.
Qed.

Lemma Grows_asyncDispose (closed : bool) (w : World) :
  Grows w (asyncDispose closed w).2.
Proof.
  unfold asyncDispose. simpl.
  destruct (isConnected w); simpl;
    [|eapply Grows_trans; [apply Grows_newPromise|apply Grows_settle]].
  eapply Grows_trans; [|apply Grows_cleanup].
  eapply Grows_trans; [apply Grows_newPromise|].
  destruct (socket w) as [n|]; [|apply Grows_settle].
  destruct (is_destroyed n _ || closed); [apply Grows_settle|by constructor].
Qed.

Lemma Grows_handleNotification (notification : JsonValue) (w : World) :
  Grows w (_handleNotification notification w).2.
Proof. apply Grows_core, handleNotification_core. Qed.

Lemma Grows_handleResponse `{JsRuntime} (response : JsonValue) (w : World) :
  Grows w (_handleResponse response w).2.
Proof.
  unfold _handleResponse.
  destruct (negb (is_object response) || negb (has_key "id" response));
    [apply Grows_print|].
  destruct (number_key (prop "id" response)) as [id|];
    [|apply Grows_handleNotification].
  destruct (pendingRequests w !! id) as [pc|]; [|apply Grows_handleNotification].
  destruct (if has_key "error" response then prop "error" response else None)
    as [e|]; [|apply Grows_finish].
  assert (Grows w (match ToString e with
                   | Some s => (None, settle (deferred pc) (RpcError s)
                                         (forget id (timeoutId pc) w))
                   | None => (Some TypeError, forget id (timeoutId pc) w)
                   end).2) as Hgoal.
  { destruct (ToString e); simpl; [apply Grows_finish|apply Grows_forget]. }
  destruct e; [apply Grows_finish|exact Hgoal..].
Qed.

Lemma Grows_handle_message `{JsRuntime} (w : World) (message : string) :
  Grows w (handle_message w message).
Proof.
  unfold handle_message.
  destruct (String.eqb message EmptyString); [apply Grows_refl|].
  destruct (JSON_parse message) as [response|]; [|apply Grows_print].
  pose proof (Grows_handleResponse response w) as G.
  destruct (_handleResponse response w) as [[err|] w']; simpl in G; [|done].
  eapply Grows_trans; [exact G|apply Grows_print].
Qed.

Lemma Grows_messages `{JsRuntime} (l : list string) (w : World) :
  Grows w (foldl handle_message w l).
Proof.
  revert w. induction l as [|m l IH]; intros w; simpl; [apply Grows_refl|].
  eapply Grows_trans; [apply Grows_handle_message|apply IH].
Qed.

Lemma Grows_on_timer `{JsRuntime} (t : nat) (w : World) : Grows w (on_timer t w).
Proof.
  unfold on_timer. destruct (timers w !! t) as [[id m p|p]|]; [| |apply Grows_refl].
  - apply (Grows_finish id t p _ w).
  - eapply Grows_trans; [apply (Grows_clearTimeout t)|].
    eapply Grows_trans; [apply Grows_cleanup|apply Grows_settle].
Qed.

Lemma Grows_on_written (wr : nat) (err : option JsError) (w : World) :
  Grows w (on_written wr err w).
Proof.
  unfold on_written. destruct (writes w !! wr) as [cb|]; [|apply Grows_refl].
  assert (Grows w (set_writes (delete wr (writes w)) (nextWrite w) w)) as G
    by by constructor.
  destruct err as [e|]; [|done].
  eapply Grows_trans; [exact G|].
  apply (Grows_finish (w_id cb) (w_timeoutId cb) (w_deferred cb) _
           (set_writes (delete wr (writes w)) (nextWrite w) w)).
Qed.

Lemma Grows_handle `{JsRuntime} (e : Event) (w : World) : Grows w (handle e w).
Proof.
  destruct e; simpl.
  - apply Grows_connect.
  - apply Grows_request.
  - apply Grows_asyncDispose.
  - destruct (sockets w !! n) as [s|]; [|apply Grows_refl].
    destruct (connecting s); [|apply Grows_refl]. unfold on_connect.
    eapply Grows_trans; [|apply Grows_settle].
    constructor; simpl; try done.
    by intros t c [_ Ht]%lookup_delete_Some _.
  - destruct (sockets w !! n) as [s|]; [|apply Grows_refl]. unfold on_error.
    eapply Grows_trans; [apply (Grows_clearTimeout (on_timeoutId s))|].
    eapply Grows_trans; [apply Grows_cleanup|apply Grows_settle].
  - destruct (sockets w !! n) as [s|]; [|apply Grows_refl].
    unfold on_close. eapply Grows_trans; [apply Grows_cleanup|].
    eapply Grows_trans;
      [apply (Grows_settle_all (once_close s) (Fulfilled VUndefined))|].
    by constructor.
  - destruct (sockets w !! n) as [s|]; [|apply Grows_refl]. apply Grows_messages.
  - apply Grows_on_timer.
  - apply Grows_on_written.
Qed.

Lemma Grows_run `{JsRuntime} (events : list Event) (w : World) : Grows w (run events w).
Proof.
  revert w. induction events as [|e es IH]; intros w; simpl; [apply Grows_refl|].
  eapply Grows_trans; [apply Grows_handle|apply IH].
Qed.

Lemma reachable_run `{JsRuntime} (events : list Event) (w : World) :
  reachable w → reachable (run events w).
Proof.
  revert w. induction events as [|e es IH]; intros w Hw; simpl; [done|].
  by apply IH, reachable_handle.
Qed.

(** ** The identifier counter *)

Lemma requestId_settle_all (l : list nat) (o : Outcome) (w : World) :
  requestId (foldl (λ w p, settle p o w) w l) = requestId w.
Proof. revert w. induction l as [|p l IH]; intros w; simpl; [done|]. by rewrite IH. Qed.

Lemma requestId_cleanup (w : World) : requestId (_cleanup w) = requestId w.
Proof. apply cleanup_frame. Qed.

Lemma requestId_handleResponse `{JsRuntime} (response : JsonValue) (w : World) :
  requestId (_handleResponse response w).2 = requestId w.
Proof.
  unfold _handleResponse.
  destruct (negb (is_object response) || negb (has_key "id" response)); [done|].
  pose proof (handleNotification_core response w) as (_ & Hn & _).
  destruct (number_key (prop "id" response)) as [id|]; [|done].
  destruct (pendingRequests w !! id) as [pc|]; [|done].
  destruct (if has_key "error" response then prop "error" response else None)
    as [e|]; [|done].
  assert (requestId (match ToString e with
                     | Some s => (None, settle (deferred pc) (RpcError s)
                                           (forget id (timeoutId pc) w))
                     | None => (Some TypeError, forget id (timeoutId pc) w)
                     end).2 = requestId w) as Hgoal by by destruct (ToString e).
  destruct e; [done|exact Hgoal..].
Qed.

Lemma requestId_messages `{JsRuntime} (l : list string) (w : World) :
  requestId (foldl handle_message w l) = requestId w.
Proof.
  revert w. induction l as [|m l IH]; intros w; simpl; [done|]. rewrite IH.
  unfold handle_message. destruct (String.eqb m EmptyString); [done|].
  destruct (JSON_parse m) as [response|]; [|done].
  pose proof (requestId_handleResponse response w) as G.
  by destruct (_handleResponse response w) as [[err|] w'].
Qed.

Lemma requestId_handle `{JsRuntime} (e : Event) (w : World) :
  requestId (handle e w)
  = match e with
    | CallRequest _ _ =>
        if isConnected w then increment (requestId w) else requestId w
    | _ => requestId w
    end.
Proof.
  destruct e; simpl.
  - unfold connect. simpl. destruct (isConnected w); [done|]. by destruct existsSync.
  - unfold request. simpl. destruct (isConnected w); [|done]. by destruct (socket w).
  - unfold close, asyncDispose. simpl. destruct (isConnected w); [|done].
    simpl. rewrite requestId_cleanup. destruct (socket w) as [n|]; [|done].
    by destruct (is_destroyed n _ || closed).
  - destruct (sockets w !! n) as [s|]; [|done]. by destruct (connecting s).
  - destruct (sockets w !! n) as [s|]; [|done]. unfold on_error. simpl.
    by rewrite requestId_cleanup.
  - destruct (sockets w !! n) as [s|]; [|done].
    unfold on_close. simpl. by rewrite requestId_settle_all, requestId_cleanup.
  - destruct (sockets w !! n) as [s|]; [|done]. apply requestId_messages.
  - unfold on_timer. destruct (timers w !! t) as [[id m p|p]|]; [done| |done].
    simpl. by rewrite requestId_cleanup.
  - unfold on_written. destruct (writes w !! wr) as [cb|]; [|done]. by destruct err.
Qed.

(** What a call on a connected client registers. *)
Lemma request_registers `{JsRuntime} (method : string) (params : list JsonValue)
    (w : World) :
  isConnected w = true →
  (request method params w).1 = nextPromise w
  ∧ timers (request method params w).2 !! nextTimer w
    = Some (RequestTimer (requestId w) method (nextPromise w))
  ∧ delays (request method params w).2 !! nextTimer w = Some (timeout w)
  ∧ nextTimer (request method params w).2 = S (nextTimer w)
  ∧ nextPromise (request method params w).2 = S (nextPromise w)
  ∧ requestId (request method params w).2 = increment (requestId w)
  ∧ pendingRequests (request method params w).2
    = <[requestId w := {| deferred := nextPromise w; timeoutId := nextTimer w |}]>
        (pendingRequests w)
  ∧ isConnected (request method params w).2 = true
  ∧ socket (request method params w).2 = socket w
  ∧ sockets (request method params w).2 = sockets w
  ∧ (∀ n, socket w = Some n →
       promises (request method params w).2 = promises w
       ∧ wire (request method params w).2
         = (wire w ++ [(n, request_frame method params (requestId w))])%list
       ∧ writes (request method params w).2 !! nextWrite w
         = Some {| w_timeoutId := nextTimer w; w_id := requestId w;
                   w_deferred := nextPromise w |})
  ∧ (socket w = None →
       promises (request method params w).2
       = settle_in (nextPromise w) (Rejected TypeError) (promises w)
       ∧ wire (request method params w).2 = wire w
       ∧ writes (request method params w).2 = writes w).
Proof.
  intros Hc. unfold request. simpl. rewrite Hc. simpl.
  destruct (socket w) as [n|] eqn:Hs; simpl;
    repeat split; intros; simplify_eq; try done; apply lookup_insert_eq.
Qed.

Lemma promise_is_new (w : World) : Inv w → promises w !! nextPromise w = None.
Proof.
  intros HI. destruct (promises w !! nextPromise w) eqn:Hp; [|done].
  apply (inv_promise_fresh _ HI) in Hp. lia.
Qed.

(** C6, as the client has it: identifiers are positive integers taken
    from a counter of the client object.  The counter is 1 in a new
    client and no event resets it, a [close()] and a new [connect()]
    among them: the only event that changes it is a [request] on a
    connected client.  While the counter has not passed
    [MAX_SAFE_INTEGER], that call takes the counter's value as its
    identifier and adds one to the counter, the identifiers of the
    outstanding calls are positive and below the counter, and so the
    identifier a call gets is one that no outstanding call has. *)
Theorem identifiers_monotonic_and_fresh `{JsRuntime} (w : World) :
  reachable w → (requestId w ≤ MAX_SAFE_INTEGER)%Z →
  (∀ options, requestId (new_OVSDBClient options) = 1)
  ∧ (1 ≤ requestId w)%Z
  ∧ (∀ id pc, pendingRequests w !! id = Some pc → (1 ≤ id < requestId w)%Z)
  ∧ pendingRequests w !! requestId w = None
  ∧ (∀ method params, isConnected w = true →
       pendingRequests (request method params w).2 !! requestId w
       = Some {| deferred := (request method params w).1; timeoutId := nextTimer w |}
       ∧ requestId (request method params w).2 = (requestId w + 1)%Z
       ∧ ∀ n, socket w = Some n →
           wire (request method params w).2
           = (wire w ++ [(n, request_frame method params (requestId w))])%list)
  ∧ (∀ e, requestId (handle e w)
          = match e with
            | CallRequest _ _ =>
                if isConnected w then (requestId w + 1)%Z else requestId w
            | _ => requestId w
            end)
  ∧ (∀ events, (requestId w ≤ requestId (run events w))%Z).
Proof.
  intros Hw Hb. pose proof (reachable_Inv w Hw) as HI.
  pose proof (increment_spec (requestId w)) as (_ & _ & Hinc & _).
  split; [done|]. split; [apply (inv_counter _ HI)|].
  assert (∀ id pc, pendingRequests w !! id = Some pc → (1 ≤ id < requestId w)%Z)
    as Hids.
  { intros id pc Hpc. apply (inv_ids _ HI) in Hpc. lia. }
  split; [exact Hids|]. split.
  { destruct (pendingRequests w !! requestId w) as [pc|] eqn:Hpc; [|done].
    apply Hids in Hpc. lia. }
  split.
  { intros method params Hc.
    destruct (request_registers method params w Hc)
      as (-> & _ & _ & _ & _ & -> & -> & _ & _ & _ & Hwire & _).
    split; [apply lookup_insert_eq|]. split; [by apply Hinc|].
    intros n Hn. by destruct (Hwire n Hn) as (_ & -> & _). }
  split.
  { intros e. rewrite requestId_handle. destruct e; try done.
    destruct (isConnected w); [by apply Hinc|done]. }
  intros events. apply Grows_run.
Qed.

Lemma reachable_fresh_run (events : list Event) :
  reachable (run events fresh_client).
Proof. apply reachable_run, reachable_new. Qed.

Lemma reachable_one_call : reachable one_call.
Proof. apply reachable_fresh_run. Qed.

Lemma one_call_requestId : requestId one_call = 2.
Proof. vm_compute. reflexivity. Qed.

Lemma identifiers_witness :
  (1 ≤ requestId one_call)%Z
  ∧ pendingRequests one_call !! requestId one_call = None
  ∧ pendingRequests one_call !! 1%Z = Some {| deferred := 1; timeoutId := 1 |}.
Proof.
  destruct (identifiers_monotonic_and_fresh one_call reachable_one_call)
    as (_ & H1 & _ & H2 & _).
  - rewrite one_call_requestId. lia.
  - split; [exact H1|]. split; [exact H2|]. vm_compute. reflexivity.
Defined.

Lemma reachable_connected_client : reachable connected_client.
Proof. apply reachable_fresh_run. Qed.

Lemma connected_client_isConnected : isConnected connected_client = true.
Proof. vm_compute. reflexivity. Qed.

Lemma connected_client_socket : socket connected_client = Some 0%nat.
Proof. vm_compute. reflexivity. Qed.

Lemma reachable_seventh_call : reachable seventh_call.
Proof. apply reachable_fresh_run. Qed.

(** Calls issued one after the other on a connected client. *)
Lemma requests_in_a_row `{JsRuntime} (n : nat) (method : string)
    (params : list JsonValue) (w : World) :
  isConnected w = true →
  (requestId w + Z.of_nat n ≤ MAX_SAFE_INTEGER + 1)%Z →
  requestId (run (replicate n (CallRequest method params)) w)
  = (requestId w + Z.of_nat n)%Z
  ∧ isConnected (run (replicate n (CallRequest method params)) w) = true
  ∧ socket (run (replicate n (CallRequest method params)) w) = socket w.
Proof.
  revert w. induction n as [|n IH]; intros w Hc Hb.
  - simpl. split; [lia|done].
  - change (run (replicate (S n) (CallRequest method params)) w)
      with (run (replicate n (CallRequest method params))
              (request method params w).2).
    destruct (request_registers method params w Hc)
      as (_ & _ & _ & _ & _ & Hr & _ & Hc' & Hs & _).
    pose proof (increment_spec (requestId w)) as (_ & _ & Hinc & _).
    rewrite Hinc in Hr by lia.
    destruct (IH (request method params w).2 Hc') as (E1 & E2 & E3); [lia|].
    rewrite E1, E3, Hr, Hs. split; [lia|done].
Qed.

Lemma reachable_exhausted_client : reachable exhausted_client.
Proof. apply reachable_run, reachable_connected_client. Qed.

Lemma exhausted_client_state :
  requestId exhausted_client = (MAX_SAFE_INTEGER + 1)%Z
  ∧ isConnected exhausted_client = true
  ∧ socket exhausted_client = Some 0%nat.
Proof.
  destruct (requests_in_a_row (Z.to_nat MAX_SAFE_INTEGER) "list_dbs" []
              connected_client connected_client_isConnected) as (E1 & E2 & E3).
  - rewrite Z2Nat.id by lia.
    assert (requestId connected_client = 1) as -> by (vm_compute; reflexivity). lia.
  - unfold exhausted_client. rewrite E1, E3, Z2Nat.id by lia.
    assert (requestId connected_client = 1) as -> by (vm_compute; reflexivity).
    split; [lia|]. split; [exact E2|exact connected_client_socket].
Qed.

(** C6, as stated, fails twice.  The counter belongs to the client, not
    to the connection: after seven calls, [close()] and a new
    [connect()], the next call gets the identifier 8.  And the counter is
    a double: once it has reached 2^53 it stays there, and two calls in a
    row get the identifier 2^53, the second one while the first is still
    outstanding, whose entry it replaces. *)
Lemma identifier_is_reused :
  let again := request "echo" [JString "ping"] reconnected_client in
  let first := request "echo" [JString "ping"] exhausted_client in
  let second := request "echo" [JString "ping"] first.2 in
  (isConnected reconnected_client = true
   ∧ socket reconnected_client = Some 1%nat
   ∧ pendingRequests reconnected_client = ∅
   ∧ pendingRequests again.2 !! 8%Z = Some {| deferred := again.1; timeoutId := 9 |}
   ∧ pendingRequests again.2 !! 1%Z = None)
  ∧ (pendingRequests first.2 !! 9007199254740992%Z
     = Some {| deferred := first.1; timeoutId := nextTimer exhausted_client |}
     ∧ promises first.2 !! first.1 = None
     ∧ pendingRequests second.2 !! 9007199254740992%Z
       = Some {| deferred := second.1; timeoutId := S (nextTimer exhausted_client) |}
     ∧ second.1 ≠ first.1).
Proof.
  intros again first second. split.
  - subst again. vm_compute. repeat split; reflexivity.
  - destruct exhausted_client_state as (Er & Ec & Es).
    pose proof (reachable_Inv _ reachable_exhausted_client) as HI.
    destruct (request_registers "echo" [JString "ping"] exhausted_client Ec)
      as (F1 & _ & _ & F4 & F5 & F6 & F7 & F8 & _ & _ & F11 & _).
    destruct (F11 _ Es) as (F12 & _).
    fold first in F1, F4, F5, F6, F7, F8, F12.
    destruct (request_registers "echo" [JString "ping"] first.2 F8)
      as (G1 & _ & _ & _ & _ & _ & G7 & _).
    fold second in G1, G7.
    pose proof (increment_spec (requestId exhausted_client)) as (_ & _ & _ & Hinc).
    rewrite Hinc in F6 by lia.
    rewrite F7, G7, F6, F4, G1, F1, F5, F12, Er.
    split; [apply lookup_insert_eq|]. split; [by apply promise_is_new|].
    split; [apply lookup_insert_eq|lia].
Qed.

(** ** Calls on a client that is not connected *)

(** C9: a call issued while the client is not connected is rejected at
    once with [NotConnected]: the promise [request] returns is new and is
    already rejected in the state [request] leaves, no identifier is
    taken, no entry is added to the pending table, no timer is armed and
    nothing is written to the socket. *)
Theorem request_when_not_connected `{JsRuntime} (method : string)
    (params : list JsonValue) (w : World) :
  reachable w → isConnected w = false →
  let '(p, w') := request method params w in
  promises w !! p = None
  ∧ promises w' !! p = Some NotConnected
  ∧ requestId w' = requestId w
  ∧ pendingRequests w' = pendingRequests w
  ∧ timers w' = timers w ∧ nextTimer w' = nextTimer w
  ∧ writes w' = writes w ∧ wire w' = wire w.
Proof.
  intros Hw Hc. pose proof (reachable_Inv w Hw) as HI.
  unfold request. simpl. rewrite Hc. simpl.
  pose proof (promise_is_new w HI) as Hnew.
  split; [done|]. split; [|done]. by apply settle_in_fresh.
Qed.

Lemma request_when_not_connected_witness :
  let '(p, w') := request "list_dbs" [] fresh_client in
  promises w' !! p = Some NotConnected
  ∧ requestId w' = 1%Z ∧ pendingRequests w' = ∅.
Proof.
  pose proof (request_when_not_connected "list_dbs" [] fresh_client
                (reachable_new _) eq_refl) as (_ & H1 & H2 & H3 & _).
  split; [exact H1|]. split; [exact H2|exact H3].
Defined.

(** ** [echo] *)

(** C10: [echo] normalizes its payload before it calls [request]: a
    payload that is not an array is sent as the one-element array holding
    it, the missing payload as [["ping"]], an array as it is; on a
    connected client that has its socket the frame written to the socket
    carries these parameters; and when the response has no error, or a
    null one, and its result is an array, [echo] returns that array. *)
Theorem echo_normalizes_payload `{JsRuntime} (payload : option JsonValue) (w : World)
    (n : nat) :
  isConnected w = true → socket w = Some n →
  let params :=
    match payload with
    | None => [JString "ping"]
    | Some (JArray xs) => xs
    | Some p => [p]
    end in
  echo payload w = request "echo" params w
  ∧ wire (echo payload w).2
    = (wire w ++ [(n, JSON_stringify
                        (JObject [("method", JString "echo");
                                  ("params", JArray params);
                                  ("id", JNumber (requestId w))])
                      +:+ line_feed)])%list
  ∧ ∀ response xs,
      (if has_key "error" response then prop "error" response else None) = None
      ∨ prop "error" response = Some JNull →
      prop "result" response = Some (JArray xs) →
      echo_result response = inr (JArray xs).
Proof.
  intros Hc Hs params.
  assert (echo_params payload = params) as Hparams.
  { unfold echo_params, params. by destruct payload as [[]|]. }
  unfold echo. rewrite Hparams. split; [done|]. split.
  - destruct (request_registers "echo" params w Hc)
      as (_ & _ & _ & _ & _ & _ & _ & _ & _ & _ & Hwire & _).
    by destruct (Hwire n Hs) as (_ & -> & _).
  - intros response xs Herr Hres. unfold echo_result. rewrite Hres.
    destruct Herr as [->|Herr]; [done|]. rewrite Herr. by destruct (has_key _ _).
Qed.

Lemma echo_normalizes_payload_witness :
  wire (echo None connected_client).2
  = [(0%nat, wire_text "{'method':'echo','params':['ping'],'id':1}" +:+ line_feed)]
  ∧ echo_result (JObject [("result", JArray [JString "ping"]); ("error", JNull);
                          ("id", JNumber 1)])
    = inr (JArray [JString "ping"]).
Proof.
  pose proof (echo_normalizes_payload None connected_client 0
                connected_client_isConnected connected_client_socket)
    as (_ & H1 & H2).
  split.
  - rewrite H1. vm_compute. reflexivity.
  - apply H2; [right|]; reflexivity.
Defined.

(** ** Closing *)

Lemma pending_idle (w : World) :
  Inv w → isConnected w = false → pendingRequests w = ∅.
Proof.
  intros HI Hc. apply map_empty. intros id.
  destruct (pendingRequests w !! id) as [pc|] eqn:Hpc; [|done].
  apply (inv_connected _ HI) in Hpc. congruence.
Qed.

Lemma cleanup_disarms (w : World) (id : Z) (pc : PendingCall) :
  pendingRequests w !! id = Some pc → timers (_cleanup w) !! timeoutId pc = None.
Proof.
  intros Hpc. destruct (timers (_cleanup w) !! timeoutId pc) as [c|] eqn:Ht; [|done].
  apply cleanup_timers_sub in Ht as [_ Hno]. by destruct (Hno _ _ Hpc).
Qed.

(** The state [asyncDispose] hands to [_cleanup]: the table and the
    timers are those of the state before, and so is every promise of the
    table. *)
Lemma dispose_before_cleanup (closed : bool) (w : World) :
  Inv w → isConnected w = true →
  ∃ w0, (asyncDispose closed w).2 = _cleanup w0
        ∧ (asyncDispose closed w).1 = nextPromise w
        ∧ pendingRequests w0 = pendingRequests w ∧ timers w0 = timers w
        ∧ socket w0 = socket w ∧ nextPromise w0 = S (nextPromise w)
        ∧ (∀ p, p ≠ nextPromise w → promises w0 !! p = promises w !! p).
Proof.
  intros HI Hc. unfold asyncDispose. simpl. rewrite Hc. simpl.
  destruct (socket w) as [n|] eqn:Hs.
  - destruct (is_destroyed n _ || closed); eexists; (split; [reflexivity|]);
      simpl; repeat (split; [done|]); intros p Hp; try done.
    by rewrite settle_in_other.
  - eexists. split; [reflexivity|]. simpl. repeat (split; [done|]).
    intros p Hp. by rewrite settle_in_other.
Qed.

(** C4: closing a client rejects every outstanding call with
    [ConnectionClosed] and disarms the timer of every entry of the
    pending table (distinct calls having distinct promises), leaves
    every promise that was already settled as it was, and leaves the
    pending table empty and the client not connected.  A call of the
    table is outstanding when its promise is not settled; the one other
    case is a call that [request] rejected at once with a [TypeError]
    because the client had no socket. *)
Theorem close_rejects_outstanding `{JsRuntime} (closed : bool) (w : World) :
  reachable w →
  let w' := (close closed w).2 in
  (∀ id pc, pendingRequests w !! id = Some pc →
     timers w' !! timeoutId pc = None
     ∧ (promises w !! deferred pc = None →
        promises w' !! deferred pc = Some ConnectionClosed)
     ∧ (promises w !! deferred pc = None
        ∨ promises w !! deferred pc = Some (Rejected TypeError)))
  ∧ (∀ id1 id2 pc1 pc2,
       pendingRequests w !! id1 = Some pc1 → pendingRequests w !! id2 = Some pc2 →
       deferred pc1 = deferred pc2 → id1 = id2)
  ∧ (∀ p o, promises w !! p = Some o → promises w' !! p = Some o)
  ∧ pendingRequests w' = ∅
  ∧ isConnected w' = false.
Proof.
  intros Hw w'. pose proof (reachable_Inv w Hw) as HI.
  split; [|split; [apply (inv_distinct _ HI)|split; [apply Grows_asyncDispose|]]].
  - intros id pc Hpc.
    pose proof (inv_connected _ HI _ _ Hpc) as Hc.
    pose proof (inv_deferred_fresh _ HI _ _ Hpc) as Hfresh.
    destruct (dispose_before_cleanup closed w HI Hc)
      as (w0 & E & _ & Ep & Et & _ & _ & Epr).
    subst w'. unfold close. rewrite E. rewrite <- Ep in Hpc.
    split; [by apply (cleanup_disarms _ id)|].
    split; [|apply (inv_unsettled _ HI id); by rewrite <- Ep].
    intros Hp. apply (cleanup_closed _ id); [done|].
    rewrite Epr; [done|lia].
  - subst w'. unfold close, asyncDispose. simpl.
    destruct (isConnected w) eqn:Hc; simpl.
    + split; [apply cleanup_empty|apply cleanup_frame].
    + split; [by apply pending_idle|done].
Qed.

Lemma seventh_call_pending (n : nat) :
  (1 ≤ n ≤ 7)%nat →
  pendingRequests seventh_call !! Z.of_nat n = Some {| deferred := n; timeoutId := n |}.
Proof.
  intros Hn.
  destruct n as [|[|[|[|[|[|[|[|n]]]]]]]]; try lia; vm_compute; reflexivity.
Qed.

Lemma close_rejects_outstanding_witness :
  let w' := (close false seventh_call).2 in
  promises w' !! 7%nat = Some ConnectionClosed
  ∧ promises w' !! 3%nat = Some ConnectionClosed
  ∧ timers w' !! 7%nat = None
  ∧ promises w' !! 0%nat = Some (Fulfilled VThis)
  ∧ pendingRequests w' = ∅.
Proof.
  destruct (close_rejects_outstanding false seventh_call reachable_seventh_call)
    as (H1 & _ & H2 & H3 & _).
  destruct (H1 _ _ (seventh_call_pending 7 ltac:(lia))) as (T7 & H7 & _).
  destruct (H1 _ _ (seventh_call_pending 3 ltac:(lia))) as (_ & H3' & _).
  split; [apply H7; vm_compute; reflexivity|].
  split; [apply H3'; vm_compute; reflexivity|]. split; [exact T7|].
  split; [|exact H3]. apply H2. vm_compute. reflexivity.
Defined.

(** ** Responses *)

Lemma prop_has_key (key : string) (v x : JsonValue) :
  prop key v = Some x → is_object v = true ∧ has_key key v = true.
Proof.
  destruct v; simpl; try done. intros Hx. split; [done|].
  apply bool_decide_eq_true. by rewrite Hx.
Qed.

(** What [_handleResponse] does with a message whose identifier is the
    one of an outstanding call. *)
Lemma handleResponse_match `{JsRuntime} (response : JsonValue) (id : Z)
    (pc : PendingCall) (w : World) :
  pendingRequests w !! id = Some pc → prop "id" response = Some (JNumber id) →
  _handleResponse response w
  = match (if has_key "error" response then prop "error" response else None) with
    | Some JNull | None =>
        (None, settle (deferred pc) (Fulfilled (VJson response))
                 (forget id (timeoutId pc) w))
    | Some e =>
        match ToString e with
        | Some text => (None, settle (deferred pc) (RpcError text)
                                (forget id (timeoutId pc) w))
        | None => (Some TypeError, forget id (timeoutId pc) w)
        end
    end.
Proof.
  intros Hpc Hid. unfold _handleResponse.
  destruct (prop_has_key _ _ _ Hid) as [-> ->]. simpl.
  rewrite Hid. simpl. rewrite Hpc. done.
Qed.

(** C2, as the client has it: a message whose identifier is the one of
    an outstanding call (an entry of the pending table whose promise is
    not settled) removes the call's entry and disarms its timer; when the
    message has an [error] field that is not null and prints as [text] (a
    string prints as itself), the call is rejected with the error
    [RPC Error: text]; when it has none, or a null one, the call is
    resolved with the whole message, whose [result] field is the payload
    that [echo] and the other public methods hand on. *)
Theorem response_settles_call `{JsRuntime} (response : JsonValue) (id : Z)
    (pc : PendingCall) (w : World) :
  pendingRequests w !! id = Some pc →
  promises w !! deferred pc = None →
  prop "id" response = Some (JNumber id) →
  let '(thrown, w') := _handleResponse response w in
  pendingRequests w' !! id = None
  ∧ timers w' !! timeoutId pc = None
  ∧ match (if has_key "error" response then prop "error" response else None) with
    | Some JNull | None =>
        thrown = None
        ∧ promises w' !! deferred pc = Some (Fulfilled (VJson response))
        ∧ ∀ xs, prop "result" response = Some (JArray xs) →
                echo_result response = inr (JArray xs)
    | Some e =>
        (∀ text, ToString e = Some text →
           thrown = None ∧ promises w' !! deferred pc = Some (RpcError text))
        ∧ (∀ text, e = JString text → ToString e = Some text)
    end.
Proof.
  intros Hpc Hp Hid.
  rewrite (handleResponse_match response id pc w Hpc Hid).
  assert (∀ o, let w' := settle (deferred pc) o (forget id (timeoutId pc) w) in
               pendingRequests w' !! id = None
               ∧ timers w' !! timeoutId pc = None
               ∧ promises w' !! deferred pc = Some o) as Hfin.
  { intros o. simpl. rewrite !lookup_delete_eq. by rewrite settle_in_fresh. }
  assert (pendingRequests (forget id (timeoutId pc) w) !! id = None
          ∧ timers (forget id (timeoutId pc) w) !! timeoutId pc = None) as Hslip.
  { simpl. by rewrite !lookup_delete_eq. }
  assert (∀ xs, (if has_key "error" response then prop "error" response else None)
                = None ∨ prop "error" response = Some JNull →
                prop "result" response = Some (JArray xs) →
                echo_result response = inr (JArray xs)) as Hecho.
  { intros xs Herr Hres. unfold echo_result. rewrite Hres.
    destruct Herr as [->|Herr]; [done|]. rewrite Herr. by destruct (has_key _ _). }
  destruct (if has_key "error" response then prop "error" response else None)
    as [e|] eqn:He.
  - assert (prop "error" response = Some e) as He'.
    { destruct (has_key "error" response); [done|discriminate]. }
    destruct e.
    1: { destruct (Hfin (Fulfilled (VJson response))) as (F1 & F2 & F3).
         repeat (split; [done|]). intros xs. apply Hecho. by right. }
    all: destruct (ToString _) as [text|] eqn:Htext;
      [destruct (Hfin (RpcError text)) as (F1 & F2 & F3)|destruct Hslip as [F1 F2]];
      (split; [exact F1|]); (split; [exact F2|]);
      (split; [intros text' [= <-]; by split|]);
      intros text' [= <-]; simpl in Htext; congruence.
  - destruct (Hfin (Fulfilled (VJson response))) as (F1 & F2 & F3).
    repeat (split; [done|]). intros xs. apply Hecho. by left.
Qed.

Lemma response_settles_call_witness :
  let '(thrown, w') := _handleResponse ping_response seventh_call in
  thrown = None
  ∧ pendingRequests w' !! 7%Z = None
  ∧ promises w' !! 7%nat = Some (Fulfilled (VJson ping_response))
  ∧ echo_result ping_response = inr (JArray [JString "ping"]).
Proof.
  assert (promises seventh_call !! 7%nat = None) as Hp by (vm_compute; reflexivity).
  pose proof (response_settles_call ping_response 7 _ seventh_call
                (seventh_call_pending 7 ltac:(lia)) Hp eq_refl)
    as Hres.
  destruct (_handleResponse ping_response seventh_call) as [thrown w'].
  destruct Hres as (H1 & _ & H2 & H3 & H4).
  split; [exact H2|]. split; [exact H1|]. split; [exact H3|].
  apply H4. reflexivity.
Defined.

(** C2, as stated, fails: decoding the response
    [{"result":["ping"],"error":null,"id":7}] for the outstanding call 7
    resolves the call with the whole message, not with [["ping"]]. *)
Lemma response_resolves_with_whole_message :
  let w' := handle (SocketData 0 (wire_text "{'result':['ping'],'error':null,'id':7}"))
              seventh_call in
  promises seventh_call !! 7%nat = None
  ∧ promises w' !! 7%nat = Some (Fulfilled (VJson ping_response))
  ∧ promises w' !! 7%nat ≠ Some (Fulfilled (VJson (JArray [JString "ping"]))).
Proof.
  assert (promises (handle (SocketData 0
                      (wire_text "{'result':['ping'],'error':null,'id':7}"))
                      seventh_call) !! 7%nat
          = Some (Fulfilled (VJson ping_response))) as Hp
    by (vm_compute; reflexivity).
  split; [vm_compute; reflexivity|]. split; [exact Hp|].
  rewrite Hp. discriminate.
Qed.

(** ** Notifications *)

(** C5, as the client has it: a message with no [id] field, be it a
    notification with a method or not, is logged as an invalid response
    and dropped; a message whose [id] is there but is the identifier of no
    outstanding call (null among them) goes to the notification handler,
    which logs a message without a method as an invalid notification,
    logs [update], [locked] and [stolen] with their first parameter, and
    logs any other method under the general heading; none of these throws
    when the first parameter can be read. *)
Theorem notification_routing `{JsRuntime} (message : JsonValue) (w : World) :
  (has_key "id" message = false →
     _handleResponse message w
     = (None, print (console_error "Invalid response format:"
                       (PValue (Some message))) w))
  ∧ (has_key "id" message = true →
     (∀ id, prop "id" message = Some (JNumber id) → pendingRequests w !! id = None) →
     match prop "method" message with
     | None =>
         _handleResponse message w
         = (None, print (console_error "Invalid notification format:"
                           (PValue (Some message))) w)
     | Some (JString kind) =>
         if bool_decide (kind ∈ ["update"; "locked"; "stolen"]) then
           ∀ v, index0 (prop "params" message) = inr v →
                _handleResponse message w
                = (None, print (console_log ("Received " +:+ kind +:+ " notification:")
                                  (PValue v)) w)
         else
           _handleResponse message w
           = (None, print (console_log "Received notification:"
                             (PValue (Some (JString kind)))) w)
     | Some method =>
         _handleResponse message w
         = (None, print (console_log "Received notification:"
                           (PValue (Some method))) w)
     end).
Proof.
  split.
  - intros Hid. unfold _handleResponse. rewrite Hid.
    by rewrite orb_true_r.
  - intros Hid Hfree.
    assert (is_object message = true) as Hobj by by destruct message.
    assert (_handleResponse message w = _handleNotification message w) as ->.
    { unfold _handleResponse. rewrite Hid, Hobj. simpl.
      destruct (prop "id" message) as [[| |n| | |]|] eqn:Hn; simpl; try done.
      by rewrite (Hfree n eq_refl). }
    unfold _handleNotification. rewrite Hobj. simpl.
    destruct (prop "method" message) as [method|] eqn:Hm.
    + destruct (prop_has_key _ _ _ Hm) as [_ ->]. simpl.
      destruct method as [| | |kind| |]; try done.
      destruct (String.eqb kind "update") eqn:E1.
      { apply String.eqb_eq in E1 as ->. simpl. by intros v ->. }
      destruct (String.eqb kind "locked") eqn:E2.
      { apply String.eqb_eq in E2 as ->. simpl. by intros v ->. }
      destruct (String.eqb kind "stolen") eqn:E3.
      { apply String.eqb_eq in E3 as ->. simpl. by intros v ->. }
      apply String.eqb_neq in E1, E2, E3.
      rewrite bool_decide_eq_false_2; [done|].
      intros Hin. repeat (apply elem_of_cons in Hin as [->|Hin]; [done|]).
      by apply elem_of_nil in Hin.
    + assert (has_key "method" message = false) as ->; [|done].
      destruct message; try done. simpl in *. rewrite Hm.
      apply bool_decide_eq_false. by intros [? ?].
Qed.

(** C5, as stated, fails: an [update] notification that has no [id] field
    is not handed to the notification handler; it is logged as an invalid
    response. *)
Lemma notification_without_id_is_dropped :
  let message := JObject [("method", JString "update");
                          ("params", JArray [JString "monitor-1"; JObject []])] in
  _handleResponse message fresh_client
  = (None, print (console_error "Invalid response format:" (PValue (Some message)))
             fresh_client)
  ∧ (_handleNotification message fresh_client).2
    = print (console_log "Received update notification:"
               (PValue (Some (JString "monitor-1")))) fresh_client
  ∧ console (_handleResponse message fresh_client).2
    ≠ console (_handleNotification message fresh_client).2.
Proof. split; [reflexivity|]. split; [reflexivity|]. vm_compute. discriminate. Qed.

(** ** One outstanding call and one event *)



(** The timer of a call that is still in the table is as it was. *)
Lemma armed_later (w w' : World) (id : Z) (pc : PendingCall) (method : string) :
  Inv w → Inv w' → Grows w w' →
  timers w !! timeoutId pc = Some (RequestTimer id method (deferred pc)) →
  pendingRequests w' !! id = Some pc →
  timers w' !! timeoutId pc = Some (RequestTimer id method (deferred pc)).
Proof.
  intros HI HI' G Ht Hpc.
  destruct (inv_armed _ HI' _ _ Hpc) as [m Hm].
  pose proof (inv_timer_fresh _ HI _ _ Ht) as Hlt.
  pose proof (g_timers _ _ G _ _ Hm Hlt) as Hold. congruence.
Qed.









(** ** Timeouts *)




(** ** Frames *)

Lemma split_no_sep (sep : ascii) (s : string) :
  contains sep s = false → split sep s = [s].
Proof.
  induction s as [|a s IH]; simpl; [done|].
  intros [Ha Hs]%orb_false_iff. rewrite Ha. by rewrite (IH Hs).
Qed.

Lemma split_app_sep (sep : ascii) (a b : string) :
  contains sep a = false →
  split sep (a +:+ String sep b) = a :: split sep b.
Proof.
  induction a as [|c a IH]; simpl.
  - intros _. by rewrite Ascii.eqb_refl.
  - intros [Hc Ha]%orb_false_iff. rewrite Hc. by rewrite (IH Ha).
Qed.

Lemma handle_message_failure `{JsRuntime} (w : World) (message : string) :
  message ≠ EmptyString → JSON_parse message = None →
  handle_message w message = print parse_failure w.
Proof.
  intros Hne Hparse. unfold handle_message.
  destruct (String.eqb message EmptyString) eqn:E.
  - by apply String.eqb_eq in E.
  - by rewrite Hparse.
Qed.

Lemma handle_message_routed `{JsRuntime} (w : World) (message : string)
    (response : JsonValue) :
  message ≠ EmptyString → JSON_parse message = Some response →
  (_handleResponse response w).1 = None →
  handle_message w message = routed response w.
Proof.
  intros Hne Hparse Hok. unfold handle_message, routed.
  destruct (String.eqb message EmptyString) eqn:E.
  - by apply String.eqb_eq in E.
  - rewrite Hparse. destruct (_handleResponse response w) as [[err|] w']; [done|done].
Qed.

Lemma handle_message_thrown `{JsRuntime} (w : World) (message : string)
    (response : JsonValue) (err : JsError) :
  message ≠ EmptyString → JSON_parse message = Some response →
  (_handleResponse response w).1 = Some err →
  handle_message w message
  = print (console_error "Failed to parse JSON:" (PCaught err)) (routed response w).
Proof.
  intros Hne Hparse Hthrown. unfold handle_message, routed.
  destruct (String.eqb message EmptyString) eqn:E.
  - by apply String.eqb_eq in E.
  - rewrite Hparse. destruct (_handleResponse response w) as [thrown w'].
    simpl in Hthrown. by subst thrown.
Qed.

(** C8, as the client has it: [_handleData] splits the chunk at the line
    feeds and handles the segments one after the other; a segment that is
    not JSON adds one line to the console and the segments after it are
    handled as if it had not been there; a segment that is JSON and whose
    message makes the router throw adds the same kind of line, for what
    was thrown, after what the router did before it threw; in particular
    a chunk of two valid frames that are routed without a throw and a
    malformed segment leaves the state of the two routed messages plus
    one line for the failure.  [_handleData] is a function into states: it
    throws nothing. *)
Theorem frames_decoded_independently `{JsRuntime} (f1 f2 bad : string)
    (m1 m2 : JsonValue) (w : World) :
  contains newline f1 = false → contains newline f2 = false →
  contains newline bad = false →
  f1 ≠ EmptyString → f2 ≠ EmptyString → bad ≠ EmptyString →
  trim (f1 +:+ line_feed +:+ f2 +:+ line_feed +:+ bad)
  = f1 +:+ line_feed +:+ f2 +:+ line_feed +:+ bad →
  JSON_parse f1 = Some m1 → JSON_parse f2 = Some m2 → JSON_parse bad = None →
  (_handleResponse m1 w).1 = None →
  (_handleResponse m2 (routed m1 w)).1 = None →
  _handleData (f1 +:+ line_feed +:+ f2 +:+ line_feed +:+ bad) w
  = print parse_failure (routed m2 (routed m1 w))
  ∧ (∀ data before segment after w',
        split newline (trim data) = (before ++ segment :: after)%list →
        segment ≠ EmptyString → JSON_parse segment = None →
        _handleData data w'
        = foldl handle_message (print parse_failure (foldl handle_message w' before))
            after)
  ∧ (∀ data before segment after response err w',
        split newline (trim data) = (before ++ segment :: after)%list →
        segment ≠ EmptyString → JSON_parse segment = Some response →
        (_handleResponse response (foldl handle_message w' before)).1 = Some err →
        _handleData data w'
        = foldl handle_message
            (print (console_error "Failed to parse JSON:" (PCaught err))
               (routed response (foldl handle_message w' before)))
            after).
Proof.
  intros N1 N2 N3 E1 E2 E3 Htrim P1 P2 P3 R1 R2. split; [|split].
  - unfold _handleData. rewrite Htrim. unfold line_feed.
    change (f1 +:+ String newline EmptyString +:+ f2
            +:+ String newline EmptyString +:+ bad)
      with (f1 +:+ String newline (f2 +:+ String newline bad)).
    rewrite (split_app_sep _ _ _ N1), (split_app_sep _ _ _ N2), (split_no_sep _ _ N3).
    simpl. rewrite (handle_message_routed w f1 m1 E1 P1 R1).
    rewrite (handle_message_routed _ f2 m2 E2 P2 R2).
    by apply handle_message_failure.
  - intros data before segment after w' Hsplit Hne Hparse.
    unfold _handleData. rewrite Hsplit, foldl_app. simpl.
    by rewrite (handle_message_failure _ segment Hne Hparse).
  - intros data before segment after response err w' Hsplit Hne Hparse Hthrown.
    unfold _handleData. rewrite Hsplit, foldl_app. simpl.
    by rewrite (handle_message_thrown _ segment response err Hne Hparse Hthrown).
Qed.

Lemma frames_decoded_independently_witness :
  _handleData (echo_reply_frame +:+ line_feed +:+ locked_frame +:+ line_feed
               +:+ malformed_segment) one_call
  = print parse_failure (routed locked_notification (routed echo_reply one_call)).
Proof.
  apply (frames_decoded_independently echo_reply_frame locked_frame
           malformed_segment echo_reply locked_notification one_call).
  - vm_compute. reflexivity.
  - vm_compute. reflexivity.
  - vm_compute. reflexivity.
  - vm_compute. discriminate.
  - vm_compute. discriminate.
  - vm_compute. discriminate.
  - vm_compute. reflexivity.
  - vm_compute. reflexivity.
  - vm_compute. reflexivity.
  - vm_compute. reflexivity.
  - vm_compute. reflexivity.
  - vm_compute. reflexivity.
Defined.

(** C8, as stated, fails: a chunk of two valid frames and a malformed
    segment, whose first frame is an [update] notification without
    parameters, leaves two lines for a failure and one routed message:
    the router throws on the first frame, and what it throws is logged
    like a segment that is not JSON. *)
Lemma router_throw_is_logged_as_decode_failure :
  let chunk := update_without_params_frame +:+ line_feed +:+ locked_frame
               +:+ line_feed +:+ malformed_segment in
  JSON_parse update_without_params_frame
  = Some (JObject [("method", JString "update"); ("id", JNull)])
  ∧ JSON_parse locked_frame = Some locked_notification
  ∧ JSON_parse malformed_segment = None
  ∧ console (_handleData chunk one_call)
    = [console_error "Failed to parse JSON:" (PCaught TypeError);
       console_log "Received locked notification:" (PValue (Some (JString "mylock")));
       parse_failure]
  ∧ pendingRequests (_handleData chunk one_call) = pendingRequests one_call.
Proof. vm_compute. repeat split; reflexivity. Qed.

Example two_frames_and_a_malformed_segment :
  let w' := _handleData (echo_reply_frame +:+ line_feed +:+ locked_frame +:+ line_feed
                         +:+ malformed_segment) one_call in
  promises w' !! 1%nat = Some (Fulfilled (VJson echo_reply))
  ∧ console w' = [console_log "Received locked notification:"
                    (PValue (Some (JString "mylock")));
                  parse_failure].
Proof. vm_compute. split; reflexivity. Qed.

(** ** Frames cut by the transport *)

(** C7, as the client has it: no part of a chunk is kept for the next
    one.  When a frame arrives cut in two, and neither part is JSON by
    itself, each part is logged as a parse failure and nothing else
    changes: the pending table and the promises stay as they were,
    whatever the two parts would have been together. *)
Theorem cut_frame_is_not_reassembled `{JsRuntime} (a b : string) (w : World) :
  contains newline a = false → contains newline b = false →
  trim a = a → trim b = b → a ≠ EmptyString → b ≠ EmptyString →
  JSON_parse a = None → JSON_parse b = None →
  _handleData b (_handleData a w) = print parse_failure (print parse_failure w)
  ∧ pendingRequests (_handleData b (_handleData a w)) = pendingRequests w
  ∧ promises (_handleData b (_handleData a w)) = promises w
  ∧ timers (_handleData b (_handleData a w)) = timers w.
Proof.
  intros Na Nb Ta Tb Ea Eb Pa Pb.
  assert (_handleData b (_handleData a w) = print parse_failure (print parse_failure w))
    as ->; [|done].
  unfold _handleData. rewrite Ta, Tb, (split_no_sep _ _ Na), (split_no_sep _ _ Nb).
  simpl. rewrite (handle_message_failure w a Ea Pa).
  by apply handle_message_failure.
Qed.

Lemma cut_frame_is_not_reassembled_witness :
  _handleData second_half (_handleData first_half one_call)
  = print parse_failure (print parse_failure one_call)
  ∧ promises (_handleData second_half (_handleData first_half one_call))
    = promises one_call.
Proof.
  destruct (cut_frame_is_not_reassembled first_half second_half one_call)
    as (H1 & _ & H2 & _).
  - vm_compute. reflexivity.
  - vm_compute. reflexivity.
  - vm_compute. reflexivity.
  - vm_compute. reflexivity.
  - vm_compute. discriminate.
  - vm_compute. discriminate.
  - vm_compute. reflexivity.
  - vm_compute. reflexivity.
  - split; [exact H1|exact H2].
Defined.

(** C7, as stated, fails: the reply to call 1 arriving in one chunk
    resolves the call; arriving cut in two chunks it resolves nothing, the
    call stays in the pending table and the console has two parse
    failures. *)
Lemma cut_frame_is_lost :
  first_half +:+ second_half = echo_reply_frame
  ∧ promises (_handleData echo_reply_frame one_call) !! 1%nat
    = Some (Fulfilled (VJson echo_reply))
  ∧ promises (_handleData second_half (_handleData first_half one_call)) !! 1%nat
    = None
  ∧ pendingRequests (_handleData second_half (_handleData first_half one_call)) !! 1%Z
    = Some {| deferred := 1; timeoutId := 1 |}
  ∧ console (_handleData second_half (_handleData first_half one_call))
    = [parse_failure; parse_failure].
Proof. vm_compute. repeat split; reflexivity. Qed.


(** ** Every call ends once *)





(** ** The pending table, the timers and the promises *)



(** ** What goes out on the socket *)

Lemma wire_settle_all (l : list nat) (o : Outcome) (w : World) :
  wire (foldl (λ w p, settle p o w) w l) = wire w
  ∧ nextWrite (foldl (λ w p, settle p o w) w l) = nextWrite w.
Proof.
  destruct (settle_all_frame l o w) as (_ & _ & _ & _ & _ & _ & _ & _ & -> & _).
  split; [done|]. revert w. induction l as [|p l IH]; intros w; simpl; [done|].
  by rewrite IH.
Qed.

Lemma wire_cleanup (w : World) :
  wire (_cleanup w) = wire w ∧ nextWrite (_cleanup w) = nextWrite w.
Proof. by destruct (cleanup_frame w) as (_ & _ & _ & _ & _ & _ & _ & -> & _ & _ & -> & _). Qed.

Lemma wire_handleNotification (notification : JsonValue) (w : World) :
  wire (_handleNotification notification w).2 = wire w
  ∧ nextWrite (_handleNotification notification w).2 = nextWrite w.
Proof.
  unfold _handleNotification.
  destruct (negb (is_object notification) || negb (has_key "method" notification));
    [done|].
  destruct (prop "method" notification) as [[| | |kind| |]|]; try done.
  repeat (case_match; try done).
Qed.

Lemma wire_handleResponse `{JsRuntime} (response : JsonValue) (w : World) :
  wire (_handleResponse response w).2 = wire w
  ∧ nextWrite (_handleResponse response w).2 = nextWrite w.
Proof.
  unfold _handleResponse.
  destruct (negb (is_object response) || negb (has_key "id" response)); [done|].
  pose proof (wire_handleNotification response w) as Hn.
  destruct (number_key (prop "id" response)) as [id|]; [|done].
  destruct (pendingRequests w !! id) as [pc|]; [|done].
  destruct (if has_key "error" response then prop "error" response else None)
    as [e|]; [|done].
  assert (∀ r : option JsError * World,
            r = match ToString e with
                | Some s => (None, settle (deferred pc) (RpcError s)
                                      (forget id (timeoutId pc) w))
                | None => (Some TypeError, forget id (timeoutId pc) w)
                end →
            wire r.2 = wire w ∧ nextWrite r.2 = nextWrite w) as Hgoal.
  { intros r ->. by destruct (ToString e). }
  destruct e; [done|by apply Hgoal..].
Qed.

Lemma wire_messages `{JsRuntime} (l : list string) (w : World) :
  wire (foldl handle_message w l) = wire w
  ∧ nextWrite (foldl handle_message w l) = nextWrite w.
Proof.
  revert w. induction l as [|m l IH]; intros w; simpl; [done|].
  destruct (IH (handle_message w m)) as [-> ->].
  unfold handle_message. destruct (String.eqb m EmptyString); [done|].
  destruct (JSON_parse m) as [response|]; [|done].
  pose proof (wire_handleResponse response w) as G.
  by destruct (_handleResponse response w) as [[err|] w'].
Qed.

(** Only a [request] on a connected client that has a socket writes. *)
Lemma wire_handle `{JsRuntime} (e : Event) (w : World) :
  (∀ method params, e = CallRequest method params →
     isConnected w = false ∨ socket w = None) →
  wire (handle e w) = wire w ∧ nextWrite (handle e w) = nextWrite w.
Proof.
  intros Hreq. destruct e; simpl.
  - unfold connect. simpl. destruct (isConnected w); [done|]. by destruct existsSync.
  - unfold request. simpl. destruct (isConnected w); simpl; [|done].
    destruct (Hreq _ _ eq_refl) as [Hc|Hs]; [done|]. by rewrite Hs.
  - unfold close, asyncDispose. simpl. destruct (isConnected w); [|done].
    simpl. destruct (socket w) as [n|]; [destruct (is_destroyed n _ || closed)|];
      match goal with
      | |- context [_cleanup ?x] => by destruct (wire_cleanup x) as [-> ->]
      end.
  - destruct (sockets w !! n) as [s|]; [|done]. by destruct (connecting s).
  - destruct (sockets w !! n) as [s|]; [|done]. unfold on_error. simpl.
    by destruct (wire_cleanup (clearTimeout (on_timeoutId s) w)) as [-> ->].
  - destruct (sockets w !! n) as [s|]; [|done]. unfold on_close. simpl.
    destruct (wire_settle_all (once_close s) (Fulfilled VUndefined)
                (_cleanup w)) as [-> ->].
    apply wire_cleanup.
  - destruct (sockets w !! n) as [s|]; [|done]. apply wire_messages.
  - unfold on_timer. destruct (timers w !! t) as [[id m p|p]|]; [done| |done].
    simpl. by destruct (wire_cleanup (clearTimeout t w)) as [-> ->].
  - unfold on_written. destruct (writes w !! wr) as [cb|]; [|done]. by destruct err.
Qed.

(** The identifiers of the frames of a wire. *)
Lemma frames_in_order `{JsRuntime} (w : World) :
  reachable w →
  nextWrite w = length (wire w)
  ∧ ((requestId w ≤ MAX_SAFE_INTEGER)%Z →
     ∃ ids : list Z,
       Forall2 (λ frame id, ∃ method params,
                  frame.2 = request_frame method params id) (wire w) ids
       ∧ (∀ i j a b, ids !! i = Some a → ids !! j = Some b → (i < j)%nat →
            (a < b)%Z)
       ∧ (∀ i a, ids !! i = Some a → (1 ≤ a < requestId w)%Z)).
Proof.
  induction 1 as [options|w e Hw IH].
  { split; [done|]. intros _. exists []. split; [by constructor|]. by split. }
  pose proof (reachable_Inv w Hw) as HI. destruct IH as (IH1 & IH2).
  pose proof (inv_counter _ HI) as Hcnt.
  assert ((∃ method params n, e = CallRequest method params ∧ isConnected w = true
                              ∧ socket w = Some n)
          ∨ (∀ method params, e = CallRequest method params →
               isConnected w = false ∨ socket w = None))
    as [(method & params & n & -> & Hc & Hs)|Hno].
  { destruct e; try (right; intros; discriminate).
    destruct (isConnected w) eqn:Hc; [|right; by left].
    destruct (socket w) as [n|] eqn:Hs; [left; by eexists _, _, _|right; by right]. }
  - destruct (request_registers method params w Hc)
      as (_ & _ & _ & _ & _ & Er & _ & _ & _ & _ & Hsome & _).
    destruct (Hsome n Hs) as (_ & Ew & _).
    pose proof (increment_spec (requestId w)) as (_ & Hinc & _).
    change (handle (CallRequest method params) w) with (request method params w).2.
    split.
    { unfold request. simpl. rewrite Hc. simpl. rewrite Hs. simpl.
      rewrite length_app. simpl. lia. }
    rewrite Ew, Er. intros Hb. destruct (Hinc Hb) as [Hlt ->].
    destruct IH2 as (ids & F & Hsort & Hrange); [lia|].
    exists (ids ++ [requestId w])%list. split; [|split].
    + apply Forall2_app; [done|]. constructor; [|constructor].
      by exists method, params.
    + intros i j a b Hi Hj Hij.
      apply lookup_app_Some in Hj as [Hj|[Hge Hj]].
      * apply lookup_app_Some in Hi as [Hi|[Hge' Hi]]; [by eapply Hsort|].
        apply lookup_lt_Some in Hj. lia.
      * apply list_lookup_singleton_Some in Hj as [Hj <-].
        apply lookup_app_Some in Hi as [Hi|[Hge' Hi]]; [|lia].
        apply Hrange in Hi. lia.
    + intros i a [Hi|[Hge Hi]]%lookup_app_Some.
      * apply Hrange in Hi. lia.
      * apply list_lookup_singleton_Some in Hi as [_ <-]. lia.
  - destruct (wire_handle e w Hno) as [E1 E2]. rewrite E1, E2. split; [done|].
    intros Hb. pose proof (g_requestId _ _ (Grows_handle e w)) as Hle.
    destruct IH2 as (ids & F & Hsort & Hrange); [lia|].
    exists ids. split; [done|]. split; [done|].
    intros i a Hi. apply Hrange in Hi. lia.
Qed.

(** What has been written, in every state of a client whose counter has
    not passed [MAX_SAFE_INTEGER]: every frame is the serialization of
    an object with the fields [method], [params] and [id] followed by one
    line feed; the identifiers of the frames are identifiers that were
    handed out, and they go up from frame to frame, so that no identifier
    is written twice; and one write callback was registered for each
    frame. *)
Theorem frames_carry_increasing_identifiers `{JsRuntime} (w : World) :
  reachable w → (requestId w ≤ MAX_SAFE_INTEGER)%Z →
  nextWrite w = length (wire w)
  ∧ ∃ ids : list Z,
      Forall2 (λ frame id, ∃ method params,
                 frame.2 = request_frame method params id) (wire w) ids
      ∧ (∀ i j a b, ids !! i = Some a → ids !! j = Some b → (i < j)%nat → (a < b)%Z)
      ∧ (∀ i a, ids !! i = Some a → (1 ≤ a < requestId w)%Z).
Proof.
  intros Hw Hb. destruct (frames_in_order w Hw) as [H1 H2]. split; [done|].
  by apply H2.
Qed.

Lemma seventh_call_requestId : requestId seventh_call = 8.
Proof. vm_compute. reflexivity. Qed.

Lemma frames_carry_increasing_identifiers_witness :
  nextWrite seventh_call = length (wire seventh_call)
  ∧ length (wire seventh_call) = 7%nat.
Proof.
  destruct (frames_carry_increasing_identifiers seventh_call reachable_seventh_call)
    as (H1 & _).
  - rewrite seventh_call_requestId. lia.
  - split; [exact H1|]. vm_compute. reflexivity.
Defined.

(** ** Calls in flight together *)

(** A call issued on a connected client whose counter has not passed
    [MAX_SAFE_INTEGER] adds one entry to the pending table, under an
    identifier, a promise and a timer that no outstanding call has, and
    leaves the entries of the other calls as they are.  Its promise is
    not settled when the client has a socket, and is rejected with a
    [TypeError] when it has none. *)
Theorem request_adds_one_entry `{JsRuntime} (method : string)
    (params : list JsonValue) (w : World) :
  reachable w → isConnected w = true → (requestId w ≤ MAX_SAFE_INTEGER)%Z →
  size (pendingRequests (request method params w).2) = S (size (pendingRequests w))
  ∧ pendingRequests (request method params w).2 !! requestId w
    = Some {| deferred := (request method params w).1; timeoutId := nextTimer w |}
  ∧ (is_Some (socket w) →
     promises (request method params w).2 !! (request method params w).1 = None)
  ∧ (socket w = None →
     promises (request method params w).2 !! (request method params w).1
     = Some (Rejected TypeError))
  ∧ ∀ id pc, pendingRequests w !! id = Some pc →
      pendingRequests (request method params w).2 !! id = Some pc
      ∧ id ≠ requestId w
      ∧ deferred pc ≠ (request method params w).1
      ∧ timeoutId pc ≠ nextTimer w.
Proof.
  intros Hw Hc Hb. pose proof (reachable_Inv w Hw) as HI.
  assert (pendingRequests w !! requestId w = None) as Hnew.
  { destruct (pendingRequests w !! requestId w) as [pc|] eqn:Hpc; [|done].
    apply (inv_ids _ HI) in Hpc. lia. }
  pose proof (promise_is_new w HI) as Hp.
  destruct (request_registers method params w Hc)
    as (-> & _ & _ & _ & _ & _ & -> & _ & _ & _ & Hsome & Hnone).
  split; [by apply map_size_insert_None|]. split; [apply lookup_insert_eq|].
  split; [intros [n Hn]; by destruct (Hsome n Hn) as (-> & _)|].
  split; [intros Hn; destruct (Hnone Hn) as (-> & _); by apply settle_in_fresh|].
  intros id pc Hpc.
  pose proof (inv_ids _ HI _ _ Hpc). pose proof (inv_deferred_fresh _ HI _ _ Hpc).
  destruct (inv_armed _ HI _ _ Hpc) as [m Hm].
  pose proof (inv_timer_fresh _ HI _ _ Hm).
  split; [rewrite lookup_insert_ne; [done|lia]|]. split; [lia|]. split; lia.
Qed.

Lemma request_adds_one_entry_witness :
  size (pendingRequests (request "list_dbs" [] seventh_call).2)
  = S (size (pendingRequests seventh_call)).
Proof.
  apply (request_adds_one_entry "list_dbs" [] seventh_call reachable_seventh_call).
  - vm_compute. reflexivity.
  - rewrite seventh_call_requestId. lia.
Defined.

(** A response to one call leaves every other call of the table as it
    is, in whatever order the responses come: the other call's entry
    stays, its promise is as it was (not settled, if it was not) and its
    timer stays armed. *)
Theorem response_leaves_other_calls `{JsRuntime} (response : JsonValue)
    (id other : Z) (pc : PendingCall) (w : World) :
  reachable w →
  pendingRequests w !! other = Some pc →
  prop "id" response = Some (JNumber id) → id ≠ other →
  pendingRequests (routed response w) !! other = Some pc
  ∧ promises (routed response w) !! deferred pc = promises w !! deferred pc
  ∧ timers (routed response w) !! timeoutId pc = timers w !! timeoutId pc.
Proof.
  intros Hw Hpc Hid Hne. pose proof (reachable_Inv w Hw) as HI.
  destruct (inv_armed _ HI _ _ Hpc) as [m Hm].
  assert (pendingRequests (routed response w) !! other = Some pc
          ∧ promises (routed response w) !! deferred pc = promises w !! deferred pc)
    as [Hkeep Hsame].
  { unfold routed. destruct (pendingRequests w !! id) as [pc'|] eqn:Hpc'.
    - rewrite (handleResponse_match response id pc' w Hpc' Hid).
      assert (deferred pc' ≠ deferred pc) as Hdp.
      { intros Heq. apply Hne. by apply (inv_distinct _ HI _ _ _ _ Hpc' Hpc). }
      assert (∀ o, pendingRequests
                     (settle (deferred pc') o (forget id (timeoutId pc') w)) !! other
                   = Some pc
                   ∧ promises
                       (settle (deferred pc') o (forget id (timeoutId pc') w))
                     !! deferred pc = promises w !! deferred pc) as Hk.
      { intros o. simpl. rewrite lookup_delete_ne by done.
        by rewrite settle_in_other. }
      assert (pendingRequests (forget id (timeoutId pc') w) !! other = Some pc
              ∧ promises (forget id (timeoutId pc') w) !! deferred pc
                = promises w !! deferred pc) as Hk'.
      { simpl. by rewrite lookup_delete_ne. }
      destruct (if has_key "error" response then prop "error" response else None)
        as [e|]; [|exact (Hk _)].
      destruct e; [exact (Hk _)|..];
        destruct (ToString _); simpl; (exact (Hk _) || exact Hk').
    - unfold _handleResponse.
      destruct (prop_has_key _ _ _ Hid) as [-> ->]. simpl. rewrite Hid. simpl.
      rewrite Hpc'.
      pose proof (handleNotification_core response w)
        as (_ & _ & Hsame & _ & Hsame' & _).
      by rewrite Hsame, Hsame'. }
  split; [done|]. split; [done|].
  rewrite (armed_later w (routed response w) other pc m HI); try done.
  - by apply Inv_handleResponse.
  - apply Grows_handleResponse.
Qed.

Lemma response_leaves_other_calls_witness :
  pendingRequests (routed ping_response seventh_call) !! 3%Z
  = Some {| deferred := 3; timeoutId := 3 |}
  ∧ promises (routed ping_response seventh_call) !! 3%nat
    = promises seventh_call !! 3%nat.
Proof.
  destruct (response_leaves_other_calls ping_response 7 3
              {| deferred := 3; timeoutId := 3 |} seventh_call
              reachable_seventh_call (seventh_call_pending 3 ltac:(lia)) eq_refl
              ltac:(discriminate)) as (H1 & H2 & _).
  split; [exact H1|exact H2].
Defined.

(** A second response with the identifier of a call that a first response
    has ended is handled as a notification: it changes no promise, no
    entry and no timer, so no call is answered twice. *)
Theorem second_response_is_a_notification `{JsRuntime} (first second : JsonValue)
    (id : Z) (pc : PendingCall) (w : World) :
  reachable w →
  pendingRequests w !! id = Some pc →
  prop "id" first = Some (JNumber id) → prop "id" second = Some (JNumber id) →
  _handleResponse second (routed first w) = _handleNotification second (routed first w)
  ∧ same_core (routed first w) (routed second (routed first w)).
Proof.
  intros Hw Hpc H1 H2.
  assert (pendingRequests (routed first w) !! id = None) as Hgone.
  { unfold routed. rewrite (handleResponse_match first id pc w Hpc H1).
    assert (∀ o, pendingRequests
                   (settle (deferred pc) o (forget id (timeoutId pc) w)) !! id = None)
      as Hk.
    { intros o. simpl. apply lookup_delete_eq. }
    assert (pendingRequests (forget id (timeoutId pc) w) !! id = None) as Hk'.
    { simpl. apply lookup_delete_eq. }
    destruct (if has_key "error" first then prop "error" first else None)
      as [e|]; [|exact (Hk _)].
    destruct e; [exact (Hk _)|..];
      destruct (ToString _); simpl; (exact (Hk _) || exact Hk'). }
  assert (_handleResponse second (routed first w)
          = _handleNotification second (routed first w)) as E.
  { unfold _handleResponse at 1.
    destruct (prop_has_key _ _ _ H2) as [-> ->]. simpl. rewrite H2. simpl.
    by rewrite Hgone. }
  split; [done|]. unfold routed at 2. rewrite E. apply handleNotification_core.
Qed.

Lemma second_response_is_a_notification_witness :
  same_core (routed ping_response seventh_call)
    (routed ping_response (routed ping_response seventh_call)).
Proof.
  apply (second_response_is_a_notification ping_response ping_response 7
           {| deferred := 7; timeoutId := 7 |} seventh_call
           reachable_seventh_call (seventh_call_pending 7 ltac:(lia)) eq_refl eq_refl).
Defined.

(** Only a number is the identifier of a call: a message whose [id] is a
    string, a boolean, null, an array or an object, even one that spells
    the identifier of an outstanding call, goes to the notification
    handler and changes no promise, no entry and no timer. *)
Theorem id_that_is_no_number_matches_no_call `{JsRuntime} (message id : JsonValue)
    (w : World) :
  prop "id" message = Some id → (∀ n, id ≠ JNumber n) →
  _handleResponse message w = _handleNotification message w
  ∧ same_core w (routed message w).
Proof.
  intros Hid Hno.
  assert (_handleResponse message w = _handleNotification message w) as E.
  { unfold _handleResponse. destruct (prop_has_key _ _ _ Hid) as [-> ->]. simpl.
    rewrite Hid. destruct id; try done. by destruct (Hno n). }
  split; [done|]. unfold routed. rewrite E. apply handleNotification_core.
Qed.

Lemma id_that_is_no_number_matches_no_call_witness :
  same_core seventh_call
    (routed (JObject [("result", JArray [JString "ping"]); ("error", JNull);
                      ("id", JString "7")]) seventh_call).
Proof.
  apply (id_that_is_no_number_matches_no_call
           (JObject [("result", JArray [JString "ping"]); ("error", JNull);
                     ("id", JString "7")]) (JString "7") seventh_call eq_refl).
  intros n. discriminate.
Defined.

(** ** Messages the handlers throw on *)



(** An [update], [locked] or [stolen] notification without parameters
    (no [params] field, or a null one) makes the notification handler
    throw a [TypeError] and log nothing; [_handleData] catches it and
    logs it under the heading of a parse failure, and the state is
    otherwise as it was. *)
Theorem notification_without_params_throws `{JsRuntime} (message : JsonValue)
    (kind text : string) (w : World) :
  has_key "id" message = true →
  (∀ id, prop "id" message = Some (JNumber id) → pendingRequests w !! id = None) →
  prop "method" message = Some (JString kind) →
  kind ∈ ["update"; "locked"; "stolen"] →
  prop "params" message = None ∨ prop "params" message = Some JNull →
  text ≠ EmptyString → JSON_parse text = Some message →
  _handleResponse message w = (Some TypeError, w)
  ∧ handle_message w text
    = print (console_error "Failed to parse JSON:" (PCaught TypeError)) w.
Proof.
  intros Hid Hfree Hm Hkind Hparams Hne Hparse.
  assert (is_object message = true) as Hobj by by destruct message.
  assert (_handleResponse message w = (Some TypeError, w)) as E.
  { assert (_handleResponse message w = _handleNotification message w) as ->.
    { unfold _handleResponse. rewrite Hid, Hobj. simpl.
      destruct (prop "id" message) as [[| |n| | |]|] eqn:Hn; simpl; try done.
      by rewrite (Hfree n eq_refl). }
    unfold _handleNotification. rewrite Hobj.
    destruct (prop_has_key _ _ _ Hm) as [_ ->]. simpl. rewrite Hm.
    assert (index0 (prop "params" message) = inl TypeError) as ->
      by by destruct Hparams as [-> | ->].
    repeat (apply elem_of_cons in Hkind as [->|Hkind]; [done|]).
    by apply elem_of_nil in Hkind. }
  split; [done|]. unfold handle_message.
  destruct (String.eqb text EmptyString) eqn:Et.
  - by apply String.eqb_eq in Et.
  - by rewrite Hparse, E.
Qed.

Lemma notification_without_params_throws_witness :
  handle_message fresh_client (wire_text "{'method':'update','id':null}")
  = print (console_error "Failed to parse JSON:" (PCaught TypeError)) fresh_client.
Proof.
  apply (notification_without_params_throws
           (JObject [("method", JString "update"); ("id", JNull)]) "update"
           (wire_text "{'method':'update','id':null}") fresh_client).
  - reflexivity.
  - intros id. discriminate.
  - reflexivity.
  - left.
  - by left.
  - discriminate.
  - vm_compute. reflexivity.
Defined.

(** ** Chunks *)

Lemma split_nonempty (sep : ascii) (s : string) : split sep s ≠ [].
Proof.
  destruct s as [|a s]; simpl; [done|].
  destruct (Ascii.eqb a sep); [done|]. by destruct (split sep s).
Qed.

Lemma split_app (sep : ascii) (a b : string) :
  split sep (a +:+ String sep b) = (split sep a ++ split sep b)%list.
Proof.
  induction a as [|c a IH]; simpl.
  - by rewrite Ascii.eqb_refl.
  - rewrite IH. destruct (Ascii.eqb c sep); [done|].
    pose proof (split_nonempty sep a). by destruct (split sep a).
Qed.

(** A chunk that is empty, or holds white space and line feeds only, is
    ignored: nothing is parsed, nothing is logged, the state is as it
    was. *)
Theorem blank_chunk_is_ignored `{JsRuntime} (data : string) (w : World) :
  trim data = EmptyString → _handleData data w = w.
Proof. intros Hblank. unfold _handleData. by rewrite Hblank. Qed.

Lemma blank_chunk_is_ignored_witness :
  _handleData (" " +:+ line_feed +:+ line_feed) seventh_call = seventh_call.
Proof.
  apply (blank_chunk_is_ignored (" " +:+ line_feed +:+ line_feed) seventh_call).
  vm_compute. reflexivity.
Defined.

(** Frames may share a chunk or come one chunk each: a chunk made of two
    parts joined by a line feed, with no white space at the ends of the
    parts, is handled as the first part followed by the second. *)
Theorem chunks_compose_at_line_feeds `{JsRuntime} (a b : string) (w : World) :
  trim a = a → trim b = b →
  trim (a +:+ line_feed +:+ b) = a +:+ line_feed +:+ b →
  _handleData (a +:+ line_feed +:+ b) w = _handleData b (_handleData a w).
Proof.
  intros Ha Hb Hab. unfold _handleData. rewrite Hab, Ha, Hb.
  change (a +:+ line_feed +:+ b) with (a +:+ String newline b).
  by rewrite split_app, foldl_app.
Qed.

Lemma chunks_compose_at_line_feeds_witness :
  _handleData (echo_reply_frame +:+ line_feed +:+ locked_frame) one_call
  = _handleData locked_frame (_handleData echo_reply_frame one_call).
Proof.
  apply (chunks_compose_at_line_feeds echo_reply_frame locked_frame one_call).
  - vm_compute. reflexivity.
  - vm_compute. reflexivity.
  - vm_compute. reflexivity.
Defined.

(** ** Connecting *)

(** [connect()] on a connected client resolves at once with the client
    and does nothing else: whether the socket file exists is not looked
    at, no socket is made, no timer is armed, and the calls in flight are
    as they were. *)
Theorem connect_when_connected `{JsRuntime} (existsSync : bool) (w : World) :
  reachable w → isConnected w = true →
  promises (connect existsSync w).2 !! (connect existsSync w).1
  = Some (Fulfilled VThis)
  ∧ socket (connect existsSync w).2 = socket w
  ∧ timers (connect existsSync w).2 = timers w
  ∧ pendingRequests (connect existsSync w).2 = pendingRequests w
  ∧ isConnected (connect existsSync w).2 = true
  ∧ (∀ p o, promises w !! p = Some o → promises (connect existsSync w).2 !! p = Some o)
  ∧ sockets (connect existsSync w).2 = sockets w.
Proof.
  intros Hw Hc. pose proof (reachable_Inv w Hw) as HI.
  unfold connect. simpl. rewrite Hc. simpl.
  split; [by apply settle_in_fresh, promise_is_new|].
  repeat (split; [done|]). split; [|done].
  intros p o Hp. by apply settle_in_settled.
Qed.

Lemma connect_when_connected_witness :
  promises (connect false one_call).2 !! (connect false one_call).1
  = Some (Fulfilled VThis)
  ∧ pendingRequests (connect false one_call).2 = pendingRequests one_call.
Proof.
  destruct (connect_when_connected false one_call reachable_one_call)
    as (H1 & _ & _ & H2 & _).
  - vm_compute. reflexivity.
  - split; [exact H1|exact H2].
Defined.

(** [connect()] on a client that is not connected, when the socket file
    does not exist, rejects at once with an error that names the path; no
    socket is made and no timer is armed. *)
Theorem connect_without_socket_file `{JsRuntime} (w : World) :
  reachable w → isConnected w = false →
  promises (connect false w).2 !! (connect false w).1
  = Some (Rejected (Error ("OVSDB socket not found: " +:+ socketPath w)))
  ∧ socket (connect false w).2 = socket w
  ∧ timers (connect false w).2 = timers w
  ∧ isConnected (connect false w).2 = false
  ∧ sockets (connect false w).2 = sockets w.
Proof.
  intros Hw Hc. pose proof (reachable_Inv w Hw) as HI.
  unfold connect. simpl. rewrite Hc. simpl.
  split; [by apply settle_in_fresh, promise_is_new|done].
Qed.

Lemma connect_without_socket_file_witness :
  promises (connect false fresh_client).2 !! (connect false fresh_client).1
  = Some (Rejected (Error "OVSDB socket not found: /var/run/openvswitch/db.sock")).
Proof.
  apply (connect_without_socket_file fresh_client (reachable_new _) eq_refl).
Defined.

Lemma connect_attempt_state (w : World) :
  isConnected w = false →
  (connect true w).1 = nextPromise w
  ∧ socket (connect true w).2 = Some (nextSocket w)
  ∧ sockets (connect true w).2 !! nextSocket w
    = Some {| connecting := true; destroyed := false; on_timeoutId := nextTimer w;
              on_deferred := nextPromise w; once_close := [] |}
  ∧ timers (connect true w).2 !! nextTimer w = Some (ConnectTimer (nextPromise w))
  ∧ delays (connect true w).2 !! nextTimer w = Some (timeout w)
  ∧ promises (connect true w).2 = promises w
  ∧ pendingRequests (connect true w).2 = pendingRequests w
  ∧ isConnected (connect true w).2 = false
  ∧ timeout (connect true w).2 = timeout w.
Proof.
  intros Hc. unfold connect. simpl. rewrite Hc. simpl.
  by rewrite !lookup_insert_eq.
Qed.

Lemma cleanup_keeps_unsettled (w : World) (p : nat) :
  pendingRequests w = ∅ → promises w !! p = None →
  promises (_cleanup w) !! p = None.
Proof.
  intros Hidle Hp.
  destruct (promises (_cleanup w) !! p) as [o|] eqn:Hq; [|done].
  apply cleanup_promises_inv in Hq as [Hq|(_ & id & pc & Hpc & _)]; [congruence|].
  by rewrite Hidle, lookup_empty in Hpc.
Qed.

Lemma attempt_ends `{JsRuntime} (w : World) (n p t : nat) (err : JsError) :
  sockets w !! n
  = Some {| connecting := true; destroyed := false; on_timeoutId := t;
            on_deferred := p; once_close := [] |} →
  timers w !! t = Some (ConnectTimer p) →
  promises w !! p = None → pendingRequests w = ∅ →
  (isConnected (handle (SocketConnect n) w) = true
   ∧ promises (handle (SocketConnect n) w) !! p = Some (Fulfilled VThis)
   ∧ timers (handle (SocketConnect n) w) !! t = None)
  ∧ (isConnected (handle (TimerFires t) w) = false
     ∧ socket (handle (TimerFires t) w) = None
     ∧ promises (handle (TimerFires t) w) !! p
       = Some (Rejected (Error ("Connection timeout after "
                                +:+ Number_toString (timeout w) +:+ "ms"))))
  ∧ (isConnected (handle (SocketError n err) w) = false
     ∧ socket (handle (SocketError n err) w) = None
     ∧ timers (handle (SocketError n err) w) !! t = None
     ∧ promises (handle (SocketError n err) w) !! p = Some (Rejected err)).
Proof.
  intros Hs Ht Hp Hidle.
  assert (promises (_cleanup (clearTimeout t w)) !! p = None) as Hclean
    by by apply cleanup_keeps_unsettled.
  destruct (cleanup_frame (clearTimeout t w))
    as (Fc & Fs & _ & _ & _ & _ & _ & _ & _ & _ & _ & _ & Fto & _).
  split; [|split].
  - cbn [handle]. rewrite Hs. cbn [connecting]. unfold on_connect.
    cbn [on_timeoutId on_deferred]. simpl. rewrite lookup_delete_eq.
    split; [done|]. split; [|done]. by apply settle_in_fresh.
  - cbn [handle]. unfold on_timer. rewrite Ht.
    cbn [isConnected socket promises settle set_promises].
    rewrite Fc, Fs, Fto. split; [done|]. split; [done|].
    by apply settle_in_fresh.
  - cbn [handle]. rewrite Hs. unfold on_error. cbn [on_timeoutId on_deferred].
    cbn [isConnected socket promises timers settle set_promises].
    rewrite Fc, Fs. split; [done|]. split; [done|]. split.
    + destruct (timers (_cleanup (clearTimeout t w)) !! t) as [c|] eqn:Hc; [|done].
      apply cleanup_timers_sub in Hc as [Hc _]. simpl in Hc.
      by rewrite lookup_delete_eq in Hc.
    + by apply settle_in_fresh.
Qed.

(** The three ends of a connection attempt.  After [connect()] on a
    client that is not connected, with the socket file there, the promise
    is not settled and a timer is armed.  The ['connect'] event of the
    socket that was made makes the client connected, resolves the promise
    with the client and disarms the timer; the timer, when it fires
    first, tears the attempt down and rejects with the time-out in
    milliseconds; an ['error'] event of the socket tears it down, disarms
    the timer and rejects with the error of the socket. *)
Theorem connect_attempt_ends `{JsRuntime} (w : World) (err : JsError) :
  reachable w → isConnected w = false →
  let p := (connect true w).1 in
  let w1 := (connect true w).2 in
  let t := nextTimer w in
  let n := nextSocket w in
  (promises w1 !! p = None ∧ timers w1 !! t = Some (ConnectTimer p)
   ∧ isConnected w1 = false)
  ∧ (isConnected (handle (SocketConnect n) w1) = true
     ∧ promises (handle (SocketConnect n) w1) !! p = Some (Fulfilled VThis)
     ∧ timers (handle (SocketConnect n) w1) !! t = None)
  ∧ (isConnected (handle (TimerFires t) w1) = false
     ∧ socket (handle (TimerFires t) w1) = None
     ∧ promises (handle (TimerFires t) w1) !! p
       = Some (Rejected (Error ("Connection timeout after "
                                +:+ Number_toString (timeout w) +:+ "ms"))))
  ∧ (isConnected (handle (SocketError n err) w1) = false
     ∧ socket (handle (SocketError n err) w1) = None
     ∧ timers (handle (SocketError n err) w1) !! t = None
     ∧ promises (handle (SocketError n err) w1) !! p = Some (Rejected err)).
Proof.
  intros Hw Hc p w1 t n. pose proof (reachable_Inv w Hw) as HI.
  destruct (connect_attempt_state w Hc)
    as (Ep & _ & Es & Et & _ & Epr & Epe & Eco & Eto).
  fold w1 in Es, Et, Epr, Epe, Eco, Eto. fold p in Ep. clearbody w1 p. subst p.
  fold t in Es, Et. fold n in Es. clearbody t n.
  assert (promises w1 !! nextPromise w = None) as Hnew
    by (rewrite Epr; by apply promise_is_new).
  assert (pendingRequests w1 = ∅) as Hidle
    by (rewrite Epe; by apply pending_idle).
  split; [done|]. rewrite <- Eto.
  by apply attempt_ends.
Qed.

Lemma connect_attempt_ends_witness :
  isConnected (handle (SocketConnect (nextSocket fresh_client))
                 (connect true fresh_client).2) = true
  ∧ promises (handle (TimerFires (nextTimer fresh_client))
                (connect true fresh_client).2) !! (connect true fresh_client).1
    = Some (Rejected (Error ("Connection timeout after "
                             +:+ Number_toString (timeout fresh_client) +:+ "ms"))).
Proof.
  destruct (connect_attempt_ends fresh_client TypeError (reachable_new _) eq_refl)
    as (_ & (H1 & _) & (_ & _ & H2) & _).
  split; [exact H1|exact H2].
Defined.

(** ** Closing and what follows *)

(** [close()] on a client that is not connected resolves at once and
    touches nothing: in particular a socket that is still connecting is
    not destroyed and its timer stays armed, so the connection attempt
    goes on, and its ['connect'] event connects the client after the
    close. *)
Theorem close_when_not_connected `{JsRuntime} (closed : bool) (w : World) :
  reachable w → isConnected w = false →
  promises (close closed w).2 !! (close closed w).1 = Some (Fulfilled VUndefined)
  ∧ socket (close closed w).2 = socket w
  ∧ timers (close closed w).2 = timers w
  ∧ isConnected (close closed w).2 = false
  ∧ (∀ p o, promises w !! p = Some o → promises (close closed w).2 !! p = Some o)
  ∧ (∀ n s, sockets w !! n = Some s → connecting s = true →
            isConnected (handle (SocketConnect n) (close closed w).2) = true)
  ∧ sockets (close closed w).2 = sockets w.
Proof.
  intros Hw Hc. pose proof (reachable_Inv w Hw) as HI.
  unfold close, asyncDispose. simpl. rewrite Hc. simpl.
  split; [by apply settle_in_fresh, promise_is_new|].
  repeat (split; [done|]). split; [intros p o Hp; by apply settle_in_settled|].
  split; [|done]. intros n s Hs Hcg. by rewrite Hs, Hcg.
Qed.

Lemma close_when_not_connected_witness :
  socket (close false (connect true fresh_client).2).2
  = socket (connect true fresh_client).2
  ∧ isConnected (handle (SocketConnect 0)
                   (close false (connect true fresh_client).2).2)
    = true.
Proof.
  destruct (close_when_not_connected false (connect true fresh_client).2)
    as (_ & H1 & _ & _ & _ & H2 & _).
  - apply (reachable_handle fresh_client (CallConnect true)), reachable_new.
  - reflexivity.
  - split; [exact H1|]. apply (H2 0%nat _ eq_refl). reflexivity.
Defined.

Lemma settle_all_mem (l : list nat) (o : Outcome) (w : World) (p : nat) :
  p ∈ l → promises w !! p = None →
  promises (foldl (λ w p, settle p o w) w l) !! p = Some o.
Proof.
  revert w. induction l as [|q l IH]; intros w Hin Hp; simpl.
  - by apply elem_of_nil in Hin.
  - destruct (decide (q = p)) as [->|Hne].
    + apply (g_promises _ _ (Grows_settle_all l o _)). simpl.
      by apply settle_in_fresh.
    + apply elem_of_cons in Hin as [->|Hin]; [done|].
      apply IH; [done|]. simpl. by rewrite settle_in_other.
Qed.

Lemma settle_all_other (l : list nat) (o : Outcome) (w : World) (p : nat) :
  p ∉ l → promises (foldl (λ w p, settle p o w) w l) !! p = promises w !! p.
Proof.
  revert w. induction l as [|q l IH]; intros w Hin; simpl; [done|].
  apply not_elem_of_cons in Hin as [Hne Hin]. rewrite IH by done. simpl.
  by rewrite settle_in_other.
Qed.

(** The state [close()] leaves on a connected client that has its socket
    [n], when the platform has not closed the socket: the listener for
    the ['close'] event is on socket [n], which is destroyed. *)
Lemma close_state (w : World) (n : nat) :
  Inv w → isConnected w = true → socket w = Some n →
  ∃ s, sockets w !! n = Some s
       ∧ (close false w).1 = nextPromise w
       ∧ sockets (close false w).2
         = <[n := mark_destroyed (add_once_close (nextPromise w) s)]> (sockets w)
       ∧ promises (close false w).2 !! nextPromise w = None
       ∧ pendingRequests (close false w).2 = ∅
       ∧ isConnected (close false w).2 = false
       ∧ socket (close false w).2 = None.
Proof.
  intros HI Hc Hs. destruct (inv_this_socket _ HI _ Hs) as (s & Hn & Hd).
  exists s. split; [done|]. unfold close, asyncDispose. simpl. rewrite Hc. simpl.
  rewrite Hs. unfold is_destroyed. simpl. rewrite Hn, Hd. simpl.
  set (w0 := once_close_listener n (nextPromise w) _).
  destruct (cleanup_frame w0)
    as (Fc & Fs & Fp & _ & _ & _ & _ & _ & _ & _ & _ & _ & _ & _ & Fss).
  split; [done|]. split.
  { rewrite Fss. subst w0. simpl. rewrite Hs.
    apply map_eq. intros m. destruct (decide (m = n)) as [->|Hne].
    - by rewrite lookup_alter_eq, lookup_alter_eq, lookup_insert_eq, Hn.
    - by rewrite lookup_alter_ne, lookup_alter_ne, lookup_insert_ne. }
  split; [|done].
  destruct (promises (_cleanup w0) !! nextPromise w) as [o|] eqn:Hq; [|done].
  apply cleanup_promises_inv in Hq as [Hq|(_ & id & pc & Hpc & Hdp)].
  - subst w0. simpl in Hq. rewrite (promise_is_new w HI) in Hq. discriminate.
  - subst w0. simpl in Hpc. apply (inv_deferred_fresh _ HI) in Hpc. lia.
Qed.

(** [close()] on a connected client.  When the client has its socket and
    the platform has not closed it, the promise of [close()] stays
    unsettled while the client is torn down and the socket destroyed; the
    ['close'] event of that socket resolves it, and the ['close'] event
    of another socket does not.  When the socket is found closed, or
    the client has no socket, the promise is resolved at once. *)
Theorem close_waits_for_the_socket `{JsRuntime} (w : World) :
  reachable w → isConnected w = true →
  (∀ n, socket w = Some n →
     promises (close false w).2 !! (close false w).1 = None
     ∧ isConnected (close false w).2 = false
     ∧ socket (close false w).2 = None
     ∧ is_destroyed n (close false w).2 = true
     ∧ promises (handle (SocketClose n) (close false w).2) !! (close false w).1
       = Some (Fulfilled VUndefined)
     ∧ ∀ m, m ≠ n →
         promises (handle (SocketClose m) (close false w).2) !! (close false w).1
         = None)
  ∧ promises (close true w).2 !! (close true w).1 = Some (Fulfilled VUndefined)
  ∧ (socket w = None →
     promises (close false w).2 !! (close false w).1 = Some (Fulfilled VUndefined)).
Proof.
  intros Hw Hc. pose proof (reachable_Inv w Hw) as HI.
  pose proof (promise_is_new w HI) as Hnew.
  split; [|split].
  - intros n Hs.
    destruct (close_state w n HI Hc Hs) as (s & Hn & -> & Ess & Ep & Epe & Eco & Eso).
    generalize dependent (close false w).2. intros w' Ess Ep Epe Eco Eso.
    split; [done|]. split; [done|]. split; [done|]. split.
    { unfold is_destroyed. by rewrite Ess, lookup_insert_eq. }
    split.
    + cbn [handle]. rewrite Ess, lookup_insert_eq. unfold on_close.
      cbn [promises set_sockets once_close mark_destroyed add_once_close].
      apply settle_all_mem; [apply elem_of_app; right; left|].
      by apply cleanup_keeps_unsettled.
    + intros m Hne. cbn [handle]. rewrite Ess, lookup_insert_ne by done.
      destruct (sockets w !! m) as [s'|] eqn:Hm; [|done].
      unfold on_close. cbn [promises set_sockets].
      rewrite settle_all_other; [by apply cleanup_keeps_unsettled|].
      intros Hin.
      apply (sa_listener_fresh _ _ (inv_socket _ HI _ _ Hm)) in Hin. lia.
  - unfold close, asyncDispose. simpl. rewrite Hc. simpl.
    apply cleanup_settled. destruct (socket w) as [n|]; simpl.
    + rewrite orb_true_r. simpl. by apply settle_in_fresh.
    + by apply settle_in_fresh.
  - intros Hs. unfold close, asyncDispose. simpl. rewrite Hc. simpl. rewrite Hs.
    apply cleanup_settled. simpl. by apply settle_in_fresh.
Qed.

Lemma close_waits_for_the_socket_witness :
  promises (close false one_call).2 !! (close false one_call).1 = None
  ∧ promises (handle (SocketClose 0) (close false one_call).2)
    !! (close false one_call).1
    = Some (Fulfilled VUndefined).
Proof.
  destruct (close_waits_for_the_socket one_call reachable_one_call)
    as (H & _).
  - vm_compute. reflexivity.
  - destruct (H 0%nat) as (H1 & _ & _ & _ & H2 & _).
    + vm_compute. reflexivity.
    + split; [exact H1|exact H2].
Defined.

(** After [close()], in whatever state it was called, a call is rejected
    with [NotConnected] and the pending table stays empty. *)
Theorem request_after_close `{JsRuntime} (closed : bool) (method : string)
    (params : list JsonValue) (w : World) :
  reachable w →
  promises (request method params (close closed w).2).2
    !! (request method params (close closed w).2).1 = Some NotConnected
  ∧ pendingRequests (request method params (close closed w).2).2 = ∅
  ∧ wire (request method params (close closed w).2).2 = wire w.
Proof.
  intros Hw. pose proof (reachable_Inv w Hw) as HI.
  pose proof (reachable_handle w (CallClose closed) Hw) as Hw'.
  change (handle (CallClose closed) w) with (close closed w).2 in Hw'.
  pose proof (reachable_Inv _ Hw') as HI'.
  assert (isConnected (close closed w).2 = false
          ∧ pendingRequests (close closed w).2 = ∅
          ∧ wire (close closed w).2 = wire w) as (Hc & Hidle & Hwire).
  { pose proof (wire_handle (CallClose closed) w) as [Hwi _]; [done|].
    split; [|split; [|exact Hwi]]; unfold close, asyncDispose; simpl;
      destruct (isConnected w) eqn:Hcw; simpl;
      try apply cleanup_frame; try done; try apply cleanup_empty.
    by apply pending_idle. }
  revert Hc Hidle Hwire HI'. generalize (close closed w).2. intros w' Hc Hidle Hwire HI'.
  unfold request. simpl. rewrite Hc. simpl.
  split; [by apply settle_in_fresh, promise_is_new|done].
Qed.

Lemma request_after_close_witness :
  promises (request "list_dbs" [] (close false seventh_call).2).2
    !! (request "list_dbs" [] (close false seventh_call).2).1 = Some NotConnected.
Proof.
  apply (request_after_close false "list_dbs" [] seventh_call reachable_seventh_call).
Defined.

(** ** A call on a client that has lost its socket *)

Lemma reachable_connected_without_socket : reachable connected_without_socket.
Proof. apply reachable_fresh_run. Qed.

(** A client can be marked connected while it has no socket (a socket
    that was replaced by a second [connect()] connects after the second
    one failed).  A call issued there takes an identifier, enters the
    pending table and arms its timer, and then fails at the write: its
    promise is rejected with a [TypeError] at once, nothing is written,
    and the entry and the timer are left behind.  The timer, when it
    fires, removes the entry; the promise stays as it was rejected. *)
Theorem request_without_socket `{JsRuntime} (method : string)
    (params : list JsonValue) (w : World) :
  reachable w → isConnected w = true → socket w = None →
  let p := (request method params w).1 in
  let w1 := (request method params w).2 in
  let t := nextTimer w in
  promises w1 !! p = Some (Rejected TypeError)
  ∧ pendingRequests w1 !! requestId w = Some {| deferred := p; timeoutId := t |}
  ∧ timers w1 !! t = Some (RequestTimer (requestId w) method p)
  ∧ requestId w1 = increment (requestId w)
  ∧ wire w1 = wire w
  ∧ writes w1 = writes w
  ∧ pendingRequests (handle (TimerFires t) w1) !! requestId w = None
  ∧ timers (handle (TimerFires t) w1) !! t = None
  ∧ promises (handle (TimerFires t) w1) !! p = Some (Rejected TypeError).
Proof.
  intros Hw Hc Hs p w1 t. pose proof (reachable_Inv w Hw) as HI.
  destruct (request_registers method params w Hc)
    as (Ep & Et & _ & _ & _ & Er & Epe & _ & _ & _ & _ & Hnone).
  destruct (Hnone Hs) as (Epr & Ewi & Ewr).
  fold p in Ep. fold w1 in Et, Er, Epe, Epr, Ewi, Ewr. fold t in Et, Epe.
  clearbody w1 p t. subst p.
  assert (promises w1 !! nextPromise w = Some (Rejected TypeError)) as Hp.
  { rewrite Epr. by apply settle_in_fresh, promise_is_new. }
  split; [done|]. split; [by rewrite Epe, lookup_insert_eq|].
  split; [done|]. split; [done|]. split; [done|]. split; [done|].
  cbn [handle]. unfold on_timer. rewrite Et. simpl.
  rewrite !lookup_delete_eq. split; [done|]. split; [done|].
  by apply settle_in_settled.
Qed.

Lemma request_without_socket_witness :
  promises (request "list_dbs" [] connected_without_socket).2
    !! (request "list_dbs" [] connected_without_socket).1
  = Some (Rejected TypeError)
  ∧ pendingRequests (request "list_dbs" [] connected_without_socket).2 !! 1%Z
    = Some {| deferred := (request "list_dbs" [] connected_without_socket).1;
              timeoutId := nextTimer connected_without_socket |}
  ∧ wire (request "list_dbs" [] connected_without_socket).2 = [].
Proof.
  destruct (request_without_socket "list_dbs" [] connected_without_socket
              reachable_connected_without_socket)
    as (H1 & H2 & _ & _ & H3 & _).
  - vm_compute. reflexivity.
  - vm_compute. reflexivity.
  - split; [exact H1|]. split; [exact H2|exact H3].
Defined.

(** ** The checks of the public methods *)

(** An error inside the result.  When the response has no error of its
    own and its result is an object with an [error] field that prints as
    [text], [listDbs], [getSchema], [monitor], [monitorCancel] and [echo]
    throw [OVSDB Error: text], while [transact] returns the result as it
    is and leaves the error to its caller. *)
Theorem error_inside_the_result `{JsRuntime} (response e : JsonValue)
    (fields : list (string * JsonValue)) (text : string) :
  (if has_key "error" response then prop "error" response else None) = None
  ∨ prop "error" response = Some JNull →
  prop "result" response = Some (JObject fields) →
  get_field "error" fields = Some e → ToString e = Some text →
  checked_result response = inl (Error ("OVSDB Error: " +:+ text))
  ∧ echo_result response = inl (Error ("OVSDB Error: " +:+ text))
  ∧ transact_result response = inr (Some (JObject fields)).
Proof.
  intros Herr Hres He Htext.
  unfold checked_result, echo_result, transact_result. rewrite Hres, He, Htext.
  destruct Herr as [->|Herr]; [done|]. rewrite Herr. by destruct (has_key _ _).
Qed.

Lemma error_inside_the_result_witness :
  let response :=
    JObject [("result", JObject [("error", JString "unknown database");
                                 ("details", JNull)]);
             ("error", JNull); ("id", JNumber 1)] in
  checked_result response = inl (Error "OVSDB Error: unknown database")
  ∧ transact_result response
    = inr (Some (JObject [("error", JString "unknown database"); ("details", JNull)])).
Proof.
  intros response.
  destruct (error_inside_the_result response (JString "unknown database")
              [("error", JString "unknown database"); ("details", JNull)]
              "unknown database") as (H1 & _ & H2); try reflexivity.
  - by right.
  - split; [exact H1|exact H2].
Defined.

(** A result that is no array and no object.  With no error of its own
    in the response, a result that is missing, null, a string, a number
    or a boolean makes the methods that look for an error inside it
    throw a [TypeError]; [transact] hands it on ([undefined] when it is
    missing). *)
Theorem result_that_is_no_object `{JsRuntime} (response : JsonValue) :
  (if has_key "error" response then prop "error" response else None) = None
  ∨ prop "error" response = Some JNull →
  (∀ xs, prop "result" response ≠ Some (JArray xs)) →
  (∀ fields, prop "result" response ≠ Some (JObject fields)) →
  checked_result response = inl TypeError
  ∧ echo_result response = inl TypeError
  ∧ transact_result response = inr (prop "result" response).
Proof.
  intros Herr Harr Hobj.
  assert (transact_result response = inr (prop "result" response)) as Ht.
  { unfold transact_result. destruct Herr as [->|Herr]; [done|].
    rewrite Herr. by destruct (has_key _ _). }
  assert (checked_result response = inl TypeError) as Hc.
  { unfold checked_result.
    assert (match prop "result" response with
            | Some (JArray xs) => inr (JArray xs)
            | Some (JObject fields) =>
                match get_field "error" fields with
                | Some e => match ToString e with
                            | Some s => inl (Error ("OVSDB Error: " +:+ s))
                            | None => inl TypeError
                            end
                | None => inr (JObject fields)
                end
            | _ => inl TypeError
            end = inl TypeError) as ->.
    { destruct (prop "result" response) as [[| | | |xs|fields]|]; try done.
      - by destruct (Harr xs).
      - by destruct (Hobj fields). }
    destruct Herr as [->|Herr]; [done|]. rewrite Herr. by destruct (has_key _ _). }
  split; [done|]. split; [exact Hc|done].
Qed.

Lemma result_that_is_no_object_witness :
  checked_result (JObject [("result", JNull); ("error", JNull); ("id", JNumber 1)])
  = inl TypeError
  ∧ transact_result (JObject [("error", JNull); ("id", JNumber 1)]) = inr None.
Proof.
  destruct (result_that_is_no_object
              (JObject [("result", JNull); ("error", JNull); ("id", JNumber 1)]))
    as (H1 & _); [by right|intros xs; discriminate|intros fs; discriminate|].
  destruct (result_that_is_no_object (JObject [("error", JNull); ("id", JNumber 1)]))
    as (_ & _ & H2); [by right|intros xs; discriminate|intros fs; discriminate|].
  split; [exact H1|exact H2].
Defined.

(** The first check of the public methods never fires.  A response that
    resolves a call has no error of its own, or a null one:
    [_handleResponse] rejects the others.  So on the response a method
    awaited, [transact] returns the result and no method throws an
    [RPC Error]. *)
Theorem resolved_response_has_no_error `{JsRuntime} (response : JsonValue) (v : Value)
    (id : Z) (pc : PendingCall) (w : World) :
  reachable w →
  pendingRequests w !! id = Some pc →
  prop "id" response = Some (JNumber id) →
  promises (routed response w) !! deferred pc = Some (Fulfilled v) →
  v = VJson response
  ∧ ((if has_key "error" response then prop "error" response else None) = None
     ∨ prop "error" response = Some JNull)
  ∧ transact_result response = inr (prop "result" response)
  ∧ ∀ text, checked_result response ≠ inl (Error ("RPC Error: " +:+ text)).
Proof.
  intros Hw Hpc Hid Hv. pose proof (reachable_Inv w Hw) as HI.
  pose proof (inv_unsettled _ HI _ _ Hpc) as Hp.
  unfold routed in Hv. rewrite (handleResponse_match response id pc w Hpc Hid) in Hv.
  assert (promises w !! deferred pc = None) as Hnone.
  { destruct Hp as [Hp|Hp]; [done|exfalso].
    destruct (if has_key "error" response then prop "error" response else None)
      as [e|]; [destruct e|];
      try (destruct (ToString _) as [text|]); simpl in Hv;
      try rewrite (settle_in_settled _ _ _ _ _ Hp) in Hv; congruence. }
  clear Hp.
  assert ((if has_key "error" response then prop "error" response else None) = None
          ∨ prop "error" response = Some JNull) as Herr.
  { destruct (if has_key "error" response then prop "error" response else None)
      as [e|] eqn:He; [|by left].
    assert (prop "error" response = Some e) as He'.
    { destruct (has_key "error" response); [done|discriminate]. }
    destruct e; [by right|exfalso..];
      (destruct (ToString _) as [text|]; simpl in Hv;
       [rewrite lookup_total_alt in Hv || idtac;
        rewrite settle_in_fresh in Hv by done; discriminate
       |congruence]). }
  assert (v = VJson response) as ->.
  { destruct Herr as [Herr|Herr].
    - rewrite Herr in Hv. simpl in Hv. rewrite settle_in_fresh in Hv by done.
      congruence.
    - destruct (prop_has_key _ _ _ Herr) as [_ Hk]. rewrite Hk, Herr in Hv.
      simpl in Hv. rewrite settle_in_fresh in Hv by done. congruence. }
  split; [done|]. split; [done|]. split.
  - unfold transact_result. destruct Herr as [->|Herr]; [done|].
    rewrite Herr. by destruct (has_key _ _).
  - intros text. unfold checked_result.
    assert ((if has_key "error" response then prop "error" response else None) = None
            ∨ (if has_key "error" response then prop "error" response else None)
              = Some JNull) as [-> | ->].
    { destruct Herr as [Herr|Herr]; [by left|right].
      by destruct (prop_has_key _ _ _ Herr) as [_ ->]. }
    all: destruct (prop "result" response) as [[| | | |xs|fields]|]; try done;
      destruct (get_field "error" fields) as [e|]; try done;
      destruct (ToString e); try done; intros [= Hbad]; discriminate.
Qed.

Lemma resolved_response_has_no_error_witness :
  transact_result ping_response = inr (prop "result" ping_response).
Proof.
  apply (resolved_response_has_no_error ping_response (VJson ping_response) 7
           {| deferred := 7; timeoutId := 7 |} seventh_call
           reachable_seventh_call (seventh_call_pending 7 ltac:(lia)) eq_refl).
  vm_compute. reflexivity.
Defined.
